(** * Client-side index of the Cassandra query benchmarker

    A shallow embedding of [query_benchmarker_cassandra/client_side_index.go]:
    the [Series] row record and its parser, the [ClientSideIndex] with its
    two inverted maps, and the four matching predicates.

    Go strings are byte strings, modelled by [string] (a list of 8-bit
    [ascii]).  Go maps used as sets ([map[K]struct{}]) are [gset]s, maps
    proper are [gmap]s.  Pointers ([*Series]) are locations into an explicit
    heap, because the index stores the address of a range variable and what
    a bucket denotes depends on what that variable holds in the end.
    [log.Fatal] and run-time panics are the two abnormal outcomes of a
    computation. *)

From Stdlib Require Import ZArith String Ascii List Lia.
From stdpp Require Import base numbers option list gmap strings sets.

Local Open Scope string_scope.
Local Open Scope Z_scope.

(** ** The [strings] package *)

(** [has_byte c s]: the byte [c] occurs in [s]. *)
Fixpoint has_byte (c : ascii) (s : string) : bool :=
  match s with
  | EmptyString => false
  | String a s' => if Ascii.eqb a c then true else has_byte c s'
  end.

(** [strings.Split(s, sep)] for a separator of one byte, which is what both
    calls in the source pass ("#" and ","): [s] is cut at every occurrence
    of the byte, the pieces are returned in order, and a string without the
    separator (the empty string too) gives a single piece. *)
Fixpoint Split (s : string) (sep : ascii) : list string :=
  match s with
  | EmptyString => [EmptyString]
  | String a s' =>
      if Ascii.eqb a sep then EmptyString :: Split s' sep
      else match Split s' sep with
           | piece :: pieces => String a piece :: pieces
           | [] => [String a EmptyString]
           end
  end.

(** ** The [time] package *)

(** A [time.Time] in UTC is its number of nanoseconds since the Unix epoch,
    without the bound of an int64; a [time.Duration] is a number of
    nanoseconds. *)
Definition Time : Type := Z.
Definition Duration : Type := Z.

Definition Nanosecond : Duration := 1.
Definition Second : Duration := 1000000000 * Nanosecond.
Definition Hour : Duration := 3600 * Second.
Definition secondsPerDay : Z := 86400.

Definition isLeap (year : Z) : bool :=
  (year mod 4 =? 0) && (negb (year mod 100 =? 0) || (year mod 400 =? 0)).

(** [daysBefore[m]]: days of a year that is not leap before the end of
    month [m] (so before the first of month [m + 1]). *)
Definition daysBefore (m : Z) : Z :=
  nth (Z.to_nat m)
      [0; 31; 59; 90; 120; 151; 181; 212; 243; 273; 304; 334; 365] 0.

Definition daysIn (month year : Z) : Z :=
  if (month =? 2) && isLeap year then 29
  else daysBefore month - daysBefore (month - 1).

(** Leap years among the years [1 .. year - 1]. *)
Definition leapsBefore (year : Z) : Z :=
  (year - 1) / 4 - (year - 1) / 100 + (year - 1) / 400.

(** Days from 1970-01-01 to the given calendar day. *)
Definition daysSinceEpoch (year month day : Z) : Z :=
  365 * (year - 1970) + (leapsBefore year - leapsBefore 1970)
  + daysBefore (month - 1)
  + (if isLeap year && (3 <=? month) then 1 else 0)
  + (day - 1).

(** [time.Date(year, month, day, 0, 0, 0, 0, time.UTC)]. *)
Definition Date (year month day : Z) : Time :=
  daysSinceEpoch year month day * secondsPerDay * Second.

(** [t.Add(d)]. *)
Definition Add (t : Time) (d : Duration) : Time := t + d.

(** Value of a decimal digit, [None] for any other byte. *)
Definition digit (c : ascii) : option Z :=
  let n := Z.of_N (N_of_ascii c) in
  if (48 <=? n) && (n <=? 57) then Some (n - 48) else None.

(** [time.Parse("2006-01-02", value)]: four digits of year, a dash, two
    digits of month, a dash, two digits of day and nothing after; the month
    is in 1..12 and the day exists in that month of that year.  The result
    is midnight UTC of that day; [None] stands for a non-nil error. *)
Definition time_Parse_date (value : string) : option Time :=
  match value with
  | String y1 (String y2 (String y3 (String y4 (String h1
      (String m1 (String m2 (String h2 (String d1 (String d2 EmptyString))))))))) =>
      match digit y1, digit y2, digit y3, digit y4,
            digit m1, digit m2, digit d1, digit d2 with
      | Some a, Some b, Some c, Some d, Some e, Some f, Some g, Some h =>
          let year := 1000 * a + 100 * b + 10 * c + d in
          let month := 10 * e + f in
          let day := 10 * g + h in
          if Ascii.eqb h1 "-" && Ascii.eqb h2 "-"
             && (1 <=? month) && (month <=? 12)
             && (1 <=? day) && (day <=? daysIn month year)
          then Some (Date year month day)
          else None
      | _, _, _, _, _, _, _, _ => None
      end
  | _ => None
  end.

(** ** Time intervals *)

(** [TimeInterval] is declared in another file of the package; it is the
    pair of its two instants and is compared by value when used as a map
    key. *)
Record TimeInterval : Type := mkTimeInterval { Start : Time; End : Time }.

#[global] Instance TimeInterval_eq_dec : EqDecision TimeInterval.
Proof. solve_decision. Defined.

#[global] Instance TimeInterval_countable : Countable TimeInterval.
Proof.
  apply (inj_countable' (fun ti => (Start ti, End ti))
                        (fun p => mkTimeInterval (fst p) (snd p))).
  intros []; reflexivity.
Defined.

(** Modelled from the spec: [NewTimeInterval], declared outside this file.
    The spec gives a row's interval as the half-open range
    [[date, date + bucketDuration)], so the constructor pairs its two
    arguments. *)
Definition NewTimeInterval (start end_ : Time) : TimeInterval :=
  mkTimeInterval start end_.

(** Modelled from the spec: [TimeInterval.Overlap], declared outside this
    file.  The spec: overlap is a non-empty intersection of two half-open
    ranges, and ranges that only touch at an endpoint do not overlap.  The
    intersection of [[S, E)] and [[s, e)] is [[max S s, min E e)]. *)
Definition Overlap (ti other : TimeInterval) : bool :=
  Z.max (Start ti) (Start other) <? Z.min (End ti) (End other).

(** ** Rows *)

(** A [Series]; its set of tags, a [map[string]struct{}], is a
    [gset string]. *)
Record Series : Type := mkSeries {
  Table : string;
  Id : string;
  Measurement : string;
  Tags : gset string;
  Field : string;
  SeriesTimeInterval : TimeInterval
}.

(** The zero values of the two struct types. *)
Definition zeroTimeInterval : TimeInterval := mkTimeInterval 0 0.

Definition zeroSeries : Series :=
  mkSeries EmptyString EmptyString EmptyString ∅ EmptyString zeroTimeInterval.

Definition set_Measurement (v : string) (s : Series) : Series :=
  mkSeries (Table s) (Id s) v (Tags s) (Field s) (SeriesTimeInterval s).
Definition set_Tags (v : gset string) (s : Series) : Series :=
  mkSeries (Table s) (Id s) (Measurement s) v (Field s) (SeriesTimeInterval s).
Definition set_Field (v : string) (s : Series) : Series :=
  mkSeries (Table s) (Id s) (Measurement s) (Tags s) v (SeriesTimeInterval s).
Definition set_TimeInterval (v : TimeInterval) (s : Series) : Series :=
  mkSeries (Table s) (Id s) (Measurement s) (Tags s) (Field s) v.

(** ** The heap *)

(** A location names either a variable of type [Series] whose address is
    taken, or the backing array of a [[]Series] slice. *)
Definition loc : Type := positive.

Record heap : Type := mkHeap {
  cells : gmap loc Series;
  arrays : gmap loc (list Series)
}.

Definition emptyHeap : heap := mkHeap ∅ ∅.

(** A slice header: backing array, offset of the first element in it,
    length and capacity. *)
Record slice : Type := mkSlice {
  base : loc;
  off : nat;
  len : nat;
  cap : nat
}.

(** How a computation ends: normally with a value and a heap, by
    [log.Fatal] (the process exits), or by a run-time panic. *)
Inductive outcome (A : Type) : Type :=
  | Done (a : A) (h : heap)
  | Fatal (msg : string)
  | Panic (msg : string).
Arguments Done {A} a h.
Arguments Fatal {A} msg.
Arguments Panic {A} msg.

Definition M (A : Type) : Type := heap -> outcome A.

Definition mret {A} (a : A) : M A := fun h => Done a h.

Definition mbind {A B} (m : M A) (k : A -> M B) : M B :=
  fun h => match m h with
           | Done a h' => k a h'
           | Fatal msg => Fatal msg
           | Panic msg => Panic msg
           end.

Notation "'let*' x ':=' m 'in' k" := (mbind m (fun x => k))
  (at level 10, x name, m at level 100, k at level 200).
Notation "m ';;' k" := (mbind m (fun _ => k))
  (at level 100, k at level 200, right associativity).

Definition log_Fatal {A} (msg : string) : M A := fun _ => Fatal msg.
Definition panic {A} (msg : string) : M A := fun _ => Panic msg.

(** [new(Series)] / a variable whose address escapes. *)
Definition alloc (v : Series) : M loc :=
  fun h => let l := fresh (dom (cells h)) in
           Done l (mkHeap (<[l := v]> (cells h)) (arrays h)).

(** Reading through a pointer. *)
Definition load (p : loc) : M Series :=
  fun h => match cells h !! p with
           | Some v => Done v h
           | None => Panic "invalid memory address or nil pointer dereference"
           end.

(** Updating the pointee in place, used for the field assignments
    [p.F = v]. *)
Definition modify (p : loc) (f : Series -> Series) : M unit :=
  fun h => match cells h !! p with
           | Some v => Done tt (mkHeap (<[p := f v]> (cells h)) (arrays h))
           | None => Panic "invalid memory address or nil pointer dereference"
           end.

(** [l[i]] with its bounds check. *)
Definition index {A} (l : list A) (i : nat) : M A :=
  match l !! i with
  | Some x => mret x
  | None => panic "index out of range"
  end.

(** The elements of a slice, read from its backing array. *)
Definition slice_elems (h : heap) (sl : slice) : option (list Series) :=
  match arrays h !! base sl with
  | Some a =>
      if bool_decide (off sl + cap sl <= length a)%nat && bool_decide (len sl <= cap sl)%nat
      then Some (take (len sl) (drop (off sl) a))
      else None
  | None => None
  end.

Definition read_slice (sl : slice) : M (list Series) :=
  fun h => match slice_elems h sl with
           | Some l => Done l h
           | None => Panic "slice bounds out of range"
           end.

(** [make([]Series, n)]: a new backing array of [n] zero values. *)
Definition make (n : nat) : M slice :=
  fun h => let l := fresh (dom (arrays h)) in
           Done (mkSlice l 0 n n)
                (mkHeap (cells h) (<[l := replicate n zeroSeries]> (arrays h))).

(** Overwrite the elements of [a] from position [i] on with [vs] (all of
    [vs] fits when the caller checked so). *)
Fixpoint write_at (a : list Series) (i : nat) (vs : list Series) : list Series :=
  match vs with
  | [] => a
  | v :: vs' => write_at (<[i := v]> a) (S i) vs'
  end.

(** [copy(dst, src)]: copies [min(len(dst), len(src))] elements. *)
Definition copy (dst src : slice) : M nat :=
  let* vs := read_slice src in
  let* _ := read_slice dst in
  let n := Nat.min (len dst) (len src) in
  fun h => match arrays h !! base dst with
           | Some a =>
               Done n (mkHeap (cells h)
                              (<[base dst := write_at a (off dst) (take n vs)]> (arrays h)))
           | None => Panic "slice bounds out of range"
           end.

(** A new backing array with the given contents. *)
Definition alloc_array (a : list Series) : M loc :=
  fun h => let l := fresh (dom (arrays h)) in
           Done l (mkHeap (cells h) (<[l := a]> (arrays h))).

(** ** The row parser *)

(** The loop over [measurementAndTags[1:]] that fills the set [tags]. *)
Fixpoint parse_tags (toks : list string) (tags : gset string) : M (gset string) :=
  match toks with
  | [] => mret tags
  | tag :: rest =>
      if decide (tag ∈ tags) then log_Fatal "logic error: duplicate tag"
      else parse_tags rest ({[tag]} ∪ tags)
  end.

Section Parser.
(** [BucketDuration] is a constant of the package declared in another
    file; the parser is modelled for any value of it. *)
Variable BucketDuration : Duration.

(** [func (s *Series) parse()] *)
Definition parse (s : loc) : M unit :=
  let* s0 := load s in
  let sections := Split (Id s0) "#" in
  if negb (length sections =? 3)%nat
  then log_Fatal "logic error: invalid series id"
  else
    let* sec0 := index sections 0 in
    let measurementAndTags := Split sec0 "," in
    let* m := index measurementAndTags 0 in
    modify s (set_Measurement m) ;;
    let* tags := parse_tags (drop 1 measurementAndTags) ∅ in
    modify s (set_Tags tags) ;;
    let* sec1 := index sections 1 in
    modify s (set_Field sec1) ;;
    let* sec2 := index sections 2 in
    match time_Parse_date sec2 with
    | None => log_Fatal "bad time bucket parse in pre-existing database series"
    | Some start =>
        let end_ := Add start BucketDuration in
        modify s (set_TimeInterval (NewTimeInterval start end_))
    end.

(** [func NewSeries(table, id string) Series]: the local [s] has its
    address taken by the method call, so it lives in a cell. *)
Definition NewSeries (table id : string) : M Series :=
  let* s := alloc (mkSeries table id EmptyString ∅ EmptyString zeroTimeInterval) in
  parse s ;;
  load s.
End Parser.

(** ** The matching predicates *)

(** [func (s *Series) MatchesTimeInterval(ti *TimeInterval) bool] *)
Definition MatchesTimeInterval (s : loc) (ti : TimeInterval) : M bool :=
  let* r := load s in
  mret (Overlap (SeriesTimeInterval r) ti).

(** [func (s *Series) MatchesMeasurementName(m string) bool] *)
Definition MatchesMeasurementName (s : loc) (m : string) : M bool :=
  let* r := load s in
  mret (bool_decide (Measurement r = m)).

(** [func (s *Series) MatchesFieldName(f string) bool] *)
Definition MatchesFieldName (s : loc) (f : string) : M bool :=
  let* r := load s in
  mret (bool_decide (Field r = f)).

(** The inner loop of [MatchesTagSets]: the final value of [match]. *)
Fixpoint tagset_loop (s : loc) (tagset : list string) : M bool :=
  match tagset with
  | [] => mret false
  | tag :: rest =>
      let* r := load s in
      if decide (tag ∈ Tags r) then mret true else tagset_loop s rest
  end.

(** [func (s *Series) MatchesTagSets(tagsets [][]string) bool] *)
Fixpoint MatchesTagSets (s : loc) (tagsets : list (list string)) : M bool :=
  match tagsets with
  | [] => mret true
  | tagset :: rest =>
      let* matched := tagset_loop s tagset in
      if negb matched then mret false else MatchesTagSets s rest
  end.

(** ** The index *)

(** The buckets hold pointers, [map[*Series]struct{}]. *)
Record ClientSideIndex : Type := mkClientSideIndex {
  timeIntervalMapping : gmap TimeInterval (gset loc);
  tagMapping : gmap string (gset loc);
  seriesCollection : slice;
  seriesIds : list string
}.

(** The body shared by the two index loops:
    [if _, ok := m[k]; !ok { m[k] = map[*Series]struct{}{} }]
    [if _, ok := m[k][p]; !ok { m[k][p] = struct{}{} }]. *)
Definition add_ref `{Countable K} (k : K) (p : loc)
    (m : gmap K (gset loc)) : gmap K (gset loc) :=
  let m1 := match m !! k with
            | None => <[k := ∅]> m
            | Some _ => m
            end in
  match m1 !! k with
  | Some inner => if decide (p ∈ inner) then m1 else <[k := {[p]} ∪ inner]> m1
  | None => m1
  end.

(** [for _, s := range seriesCollection { ... &s ... }]: in Go before
    1.22 a range statement declares its variable once; each iteration
    assigns the next element to that one variable, at location [s], and
    [&s] is the same pointer every time. *)
Fixpoint time_loop (s : loc) (rows : list Series)
    (bm : gmap TimeInterval (gset loc)) : M (gmap TimeInterval (gset loc)) :=
  match rows with
  | [] => mret bm
  | x :: rest =>
      modify s (fun _ => x) ;;
      let* cur := load s in
      time_loop s rest (add_ref (SeriesTimeInterval cur) s bm)
  end.

(** The inner [for tag, _ := range s.Tags]; the order of a map range is
    unspecified, the model takes the order of [elements]. *)
Definition tags_of_loop (s : loc) (tags : gset string)
    (tm : gmap string (gset loc)) : gmap string (gset loc) :=
  foldl (fun tm tag => add_ref tag s tm) tm (elements tags).

Fixpoint tag_loop (s : loc) (rows : list Series)
    (tm : gmap string (gset loc)) : M (gmap string (gset loc)) :=
  match rows with
  | [] => mret tm
  | x :: rest =>
      modify s (fun _ => x) ;;
      let* cur := load s in
      tag_loop s rest (tags_of_loop s (Tags cur) tm)
  end.

(** The third loop, [seriesIds = append(seriesIds, s.Id)]. *)
Definition ids_loop (rows : list Series) : list string :=
  foldl (fun ids s => (ids ++ [Id s])%list) [] rows.

(** [func NewClientSideIndex(seriesCollection []Series) *ClientSideIndex] *)
Definition NewClientSideIndex (sc : slice) : M ClientSideIndex :=
  if (len sc =? 0)%nat
  then log_Fatal "logic error: no data to build ClientSideIndex"
  else
    let* rows := read_slice sc in
    let* s1 := alloc zeroSeries in
    let* bm := time_loop s1 rows ∅ in
    let* s2 := alloc zeroSeries in
    let* tm := tag_loop s2 rows ∅ in
    mret (mkClientSideIndex bm tm sc (ids_loop rows)).

(** [func (csi *ClientSideIndex) CopyOfSeriesCollection() []Series] *)
Definition CopyOfSeriesCollection (csi : ClientSideIndex) : M slice :=
  let* ret := make (len (seriesCollection csi)) in
  copy ret (seriesCollection csi) ;;
  mret ret.

(** ** What a caller can do to a slice it owns *)

(** [sl[i] = v] *)
Definition set_at (sl : slice) (i : nat) (v : Series) : M unit :=
  if bool_decide (i < len sl)%nat
  then fun h =>
         match arrays h !! base sl with
         | Some a => Done tt (mkHeap (cells h)
                                     (<[base sl := <[(off sl + i)%nat := v]> a]> (arrays h)))
         | None => Panic "slice bounds out of range"
         end
  else panic "index out of range".

(** [sl[i]] *)
Definition get_at (sl : slice) (i : nat) : M Series :=
  let* l := read_slice sl in
  index l i.

(** [sl[i], sl[j] = sl[j], sl[i]] *)
Definition swap (sl : slice) (i j : nat) : M unit :=
  let* a := get_at sl i in
  let* b := get_at sl j in
  set_at sl i b ;;
  set_at sl j a.

(** [append(sl, v)]: in place when the capacity allows, into a new and
    larger backing array otherwise (how much larger is up to the run-time;
    here at least double). *)
Definition append (sl : slice) (v : Series) : M slice :=
  if bool_decide (len sl < cap sl)%nat
  then
    let sl' := mkSlice (base sl) (off sl) (S (len sl)) (cap sl) in
    set_at sl' (len sl) v ;;
    mret sl'
  else
    let* old := read_slice sl in
    let newcap := Nat.max (2 * cap sl) (S (len sl)) in
    let* l := alloc_array (old ++ v :: replicate (newcap - S (len sl)) zeroSeries)%list in
    mret (mkSlice l 0 (S (len sl)) newcap).

Inductive slice_op : Type :=
  | SetAt (i : nat) (v : Series)
  | Swap (i j : nat)
  | Append (v : Series).

Definition apply_op (op : slice_op) (sl : slice) : M slice :=
  match op with
  | SetAt i v => set_at sl i v ;; mret sl
  | Swap i j => swap sl i j ;; mret sl
  | Append v => append sl v
  end.

Fixpoint run_ops (ops : list slice_op) (sl : slice) : M slice :=
  match ops with
  | [] => mret sl
  | op :: rest => let* sl' := apply_op op sl in run_ops rest sl'
  end.

(** ** The identifier grammar and the vocabulary of the properties *)

(** [",t1,t2,...,tn"] *)
Fixpoint join_tags (tags : list string) : string :=
  match tags with
  | [] => EmptyString
  | t :: rest => String "," (t +:+ join_tags rest)
  end.

(** The identifier [m,t1,...,tn#f#date]. *)
Definition identifier (m : string) (tags : list string) (f date : string) : string :=
  (m +:+ join_tags tags) +:+ String "#" (f +:+ String "#" date).

Definition digit_char (k : Z) : ascii := ascii_of_N (Z.to_N (48 + k)).

(** A calendar day written [YYYY-MM-DD]. *)
Definition fmt_date (year month day : Z) : string :=
  String (digit_char (year / 1000 mod 10)) (String (digit_char (year / 100 mod 10))
  (String (digit_char (year / 10 mod 10)) (String (digit_char (year mod 10))
  (String "-"
  (String (digit_char (month / 10 mod 10)) (String (digit_char (month mod 10))
  (String "-"
  (String (digit_char (day / 10 mod 10)) (String (digit_char (day mod 10))
   EmptyString))))))))).

(** A day of the calendar with a year of four digits. *)
Definition valid_date (year month day : Z) : Prop :=
  0 <= year <= 9999 /\ 1 <= month <= 12 /\ 1 <= day <= daysIn month year.

(** A token of the identifier: free of both separators. *)
Definition token (s : string) : Prop :=
  has_byte "#" s = false /\ has_byte "," s = false.

(** The instants of a half-open interval. *)
Definition within (t : Time) (ti : TimeInterval) : Prop :=
  Start ti <= t < End ti.

(** The three malformed shapes of an identifier: not three sections, a
    repeated token in the tag section (the tokens after the measurement in
    the first section), a date section that [time.Parse] rejects. *)
Definition tag_section (id : string) : list string :=
  drop 1 (Split (nth 0 (Split id "#") EmptyString) ",").

Definition date_section (id : string) : string :=
  nth 2 (Split id "#") EmptyString.

Definition malformed (id : string) : Prop :=
  length (Split id "#") <> 3%nat
  \/ ~ NoDup (tag_section id)
  \/ time_Parse_date (date_section id) = None.

(** A tag group is satisfied by a row having one of its tags. *)
Definition satisfies (tags : gset string) (tagsets : list (list string)) : Prop :=
  Forall (fun tagset => Exists (fun tag => tag ∈ tags) tagset) tagsets.

(** The bucket under a key, empty when the key is absent, and the rows a
    bucket refers to: those some pointer of the bucket points to. *)
Definition bucket `{Countable K} (m : gmap K (gset loc)) (k : K) : gset loc :=
  default ∅ (m !! k).

Definition refers_to (h : heap) (refs : gset loc) (r : Series) : Prop :=
  exists p, p ∈ refs /\ cells h !! p = Some r.

(** One day, the usual size of a bucket. *)
Definition day_bucket : Duration := 24 * Hour.

(** The two rows of the end-to-end example, and an index built from them. *)
Definition example_rows : M (list Series) :=
  let* r1 := NewSeries day_bucket "T" "cpu,hostname=host_0#usage_idle#2016-01-01" in
  let* r2 := NewSeries day_bucket "T" "mem,hostname=host_1#available#2016-01-02" in
  mret [r1; r2].

Definition example_index : M (ClientSideIndex * list Series) :=
  let* rows := example_rows in
  let* l := alloc_array rows in
  let* csi := NewClientSideIndex (mkSlice l 0 2 2) in
  mret (csi, rows).

(** What [parse] leaves in the cell of a row, when it returns. *)
Definition parsed (BucketDuration : Duration) (r : Series)
    (m : string) (toks : list string) (f : string) (start : Time) : Series :=
  mkSeries (Table r) (Id r) m (list_to_set toks) f
           (mkTimeInterval start (start + BucketDuration)).

(** The heap after an assignment to the variable at [s]. *)
Definition assign (s : loc) (v : Series) (h : heap) : heap :=
  mkHeap (<[s := v]> (cells h)) (arrays h).

(** The location of the first loop's variable, and of the second's. *)
Definition first_var (h : heap) : loc := fresh (dom (cells h)).
Definition second_var (h : heap) (v : Series) : loc :=
  fresh (dom (cells (assign (first_var h) v h))).

(** An index that is exact: a row of the collection is referred to
    by the bucket of a time interval exactly when that is its interval, and
    by the bucket of a tag exactly when it has the tag. *)
Definition index_exact (h : heap) (csi : ClientSideIndex) (rows : list Series) : Prop :=
  forall r, r ∈ rows ->
    (forall k, refers_to h (bucket (timeIntervalMapping csi) k) r
               <-> SeriesTimeInterval r = k)
    /\ (forall tag, refers_to h (bucket (tagMapping csi) tag) r
                    <-> tag ∈ Tags r).

Definition example_row1 : Series :=
  mkSeries "T" "cpu,hostname=host_0#usage_idle#2016-01-01"
           "cpu" {["hostname=host_0"]} "usage_idle"
           (mkTimeInterval (Date 2016 1 1) (Date 2016 1 2)).

Definition example_row2 : Series :=
  mkSeries "T" "mem,hostname=host_1#available#2016-01-02"
           "mem" {["hostname=host_1"]} "available"
           (mkTimeInterval (Date 2016 1 2) (Date 2016 1 3)).

(** [safely o P]: the outcome [o] is not fatal and, when the computation
    returns, value and heap satisfy [P] (a panic leaves nothing to say). *)
Definition safely {A} (o : outcome A) (P : A -> heap -> Prop) : Prop :=
  match o with
  | Done a h => P a h
  | Fatal _ => False
  | Panic _ => True
  end.

(** [h'] has the arrays of [h] at every location but [b], and possibly new
    ones. *)
Definition arrays_kept_but (b : loc) (h h' : heap) : Prop :=
  forall l, l <> b -> l ∈ dom (arrays h) -> arrays h' !! l = arrays h !! l.

(** A heap with one row in a cell and a backing array of two rows, and a
    slice over that array. *)
Definition example_heap : heap :=
  mkHeap {[1%positive := example_row1]}
         {[1%positive := [example_row1; example_row2]]}.

Definition example_slice : slice := mkSlice 1%positive 0 2 2.

(** ** Fetching the collection *)

(** The text of the query for a table,
    [fmt.Sprintf(`SELECT DISTINCT series_id FROM %s`, tableName)]. *)
Definition series_id_query (tableName : string) : string :=
  "SELECT DISTINCT series_id FROM " +:+ tableName.

Section Fetch.
(** [BucketDuration] and [BlessedTables] are declared in other files of the
    package. *)
Variable BucketDuration : Duration.
Variable BlessedTables : list string.

(** The session opened on a daemon, seen through what the source does with
    it: for the text of a query, the values the successive [iter.Scan]
    calls store in [seriesId] (until [Scan] returns false) and the error
    [iter.Close] returns then, [None] for nil. *)
Variable Cassandra : string -> string -> list string * option string.

(** [for iter.Scan(&seriesId) { s := NewSeries(tableName, seriesId);
    seriesCollection = append(seriesCollection, s) }] *)
Fixpoint scan_loop (tableName : string) (ids : list string)
    (seriesCollection : slice) : M slice :=
  match ids with
  | [] => mret seriesCollection
  | seriesId :: rest =>
      let* s := NewSeries BucketDuration tableName seriesId in
      let* seriesCollection' := append seriesCollection s in
      scan_loop tableName rest seriesCollection'
  end.

(** [for _, tableName := range BlessedTables { ... }] *)
Fixpoint tables_loop (daemonUrl : string) (tables : list string)
    (seriesCollection : slice) : M slice :=
  match tables with
  | [] => mret seriesCollection
  | tableName :: rest =>
      let iter := Cassandra daemonUrl (series_id_query tableName) in
      let* seriesCollection' := scan_loop tableName (fst iter) seriesCollection in
      match snd iter with
      | Some err => log_Fatal err
      | None => tables_loop daemonUrl rest seriesCollection'
      end
  end.

(** [func FetchSeriesCollection(daemonUrl string) []Series]; the literal
    [[]Series{}] is a slice of length and capacity zero. *)
Definition FetchSeriesCollection (daemonUrl : string) : M slice :=
  let* l := alloc_array [] in
  tables_loop daemonUrl BlessedTables (mkSlice l 0 0 0).

(** The pairs of a table and an identifier that the loops meet, in order. *)
Definition scanned (daemonUrl : string) (tables : list string) : list (string * string) :=
  flat_map (fun tableName =>
              map (pair tableName)
                  (fst (Cassandra daemonUrl (series_id_query tableName))))
           tables.

(** A table that stops the fetch: one of its identifiers is malformed, or
    closing its iterator gives an error. *)
Definition bad_table (daemonUrl tableName : string) : Prop :=
  (exists id, id ∈ fst (Cassandra daemonUrl (series_id_query tableName))
              /\ malformed id)
  \/ snd (Cassandra daemonUrl (series_id_query tableName)) <> None.
End Fetch.

(** The row [NewSeries] returns for a table and an identifier, if it
    returns. *)
Definition parsed_row (BucketDuration : Duration) (table id : string) : option Series :=
  match NewSeries BucketDuration table id emptyHeap with
  | Done r _ => Some r
  | _ => None
  end.

(** The message [NewSeries] ends with on an identifier, by the order of its
    three checks. *)
Definition fatal_message (id : string) : string :=
  if negb (length (Split id "#") =? 3)%nat then "logic error: invalid series id"
  else if decide (NoDup (tag_section id)) then
         "bad time bucket parse in pre-existing database series"
       else "logic error: duplicate tag".

(** A small database: two tables, the daemon does not matter. *)
Definition example_tables : list string := ["series_bigint"; "series_double"].

Definition example_cassandra (daemonUrl query : string) : list string * option string :=
  if String.eqb query "SELECT DISTINCT series_id FROM series_bigint"
  then (["cpu,hostname=host_0#usage_idle#2016-01-01"], None)
  else if String.eqb query "SELECT DISTINCT series_id FROM series_double"
       then (["mem,hostname=host_1#available#2016-01-02"], None)
       else ([], None).

Definition empty_cassandra (daemonUrl query : string) : list string * option string :=
  ([], None).

(** * Properties *)

(** ** Splitting *)

Lemma Split_nonempty s sep : Split s sep <> [].
Proof.
  destruct s as [|a s]; simpl; [discriminate|].
  destruct (Ascii.eqb a sep); [discriminate|].
  destruct (Split s sep); discriminate.
Qed.

Lemma Split_no_sep s sep : has_byte sep s = false -> Split s sep = [s].
Proof.
  induction s as [|a s IH]; simpl; [reflexivity|].
  destruct (Ascii.eqb a sep); [discriminate|].
  intros Hs. rewrite (IH Hs). reflexivity.
Qed.

Lemma Split_app_sep a b sep :
  has_byte sep a = false ->
  Split (a +:+ String sep b) sep = a :: Split b sep.
Proof.
  induction a as [|c a IH]; simpl.
  - intros _. rewrite Ascii.eqb_refl. reflexivity.
  - destruct (Ascii.eqb c sep); [discriminate|].
    intros Ha. rewrite (IH Ha). reflexivity.
Qed.

Lemma append_empty_r s : s +:+ EmptyString = s.
Proof.
  induction s as [|a s IH]; [reflexivity|].
  change (String a (s +:+ EmptyString) = String a s). f_equal. exact IH.
Qed.

Lemma has_byte_app c a b :
  has_byte c (a +:+ b) = has_byte c a || has_byte c b.
Proof.
  induction a as [|x a IH]; simpl; [reflexivity|].
  destruct (Ascii.eqb x c); [reflexivity|apply IH].
Qed.

Lemma has_byte_join_tags c tags :
  Ascii.eqb "," c = false ->
  Forall (fun t => has_byte c t = false) tags ->
  has_byte c (join_tags tags) = false.
Proof.
  intros Hc. induction 1 as [|t tags Ht _ IH]; cbn [join_tags has_byte]; [reflexivity|].
  rewrite Hc, has_byte_app, Ht, IH. reflexivity.
Qed.

Lemma Split_measurement_and_tags m tags :
  has_byte "," m = false ->
  Forall (fun t => has_byte "," t = false) tags ->
  Split (m +:+ join_tags tags) "," = m :: tags.
Proof.
  intros Hm Htags. revert m Hm.
  induction Htags as [|t tags Ht _ IH]; intros m Hm; cbn [join_tags].
  - rewrite append_empty_r. apply Split_no_sep, Hm.
  - rewrite Split_app_sep by exact Hm. f_equal. apply IH, Ht.
Qed.

(** ** Running the heap operations *)

Lemma load_eval p v h : cells h !! p = Some v -> load p h = Done v h.
Proof. intros H. unfold load. rewrite H. reflexivity. Qed.

Lemma modify_eval p f v h :
  cells h !! p = Some v ->
  modify p f h = Done tt (mkHeap (<[p := f v]> (cells h)) (arrays h)).
Proof. intros H. unfold modify. rewrite H. reflexivity. Qed.

Lemma read_slice_eval sl l h :
  slice_elems h sl = Some l -> read_slice sl h = Done l h.
Proof. intros H. unfold read_slice. rewrite H. reflexivity. Qed.

(** ** The parser *)

Lemma parse_tags_spec toks : forall acc h,
  (NoDup toks /\ (forall t, t ∈ toks -> t ∉ acc)
   /\ parse_tags toks acc h = Done (list_to_set toks ∪ acc) h)
  \/ (~ (NoDup toks /\ forall t, t ∈ toks -> t ∉ acc)
      /\ parse_tags toks acc h = Fatal "logic error: duplicate tag").
Proof.
  induction toks as [|tag rest IH]; intros acc h; simpl.
  - left. split; [constructor|]. split; [intros t Ht; inversion Ht|].
    unfold mret. f_equal. set_solver.
  - destruct (decide (tag ∈ acc)) as [Hin|Hnin].
    + right. split; [|reflexivity].
      intros [_ Hfresh]. apply (Hfresh tag); [left|exact Hin].
    + destruct (IH ({[tag]} ∪ acc) h) as [(Hnd & Hfresh & Hrun)|(Hbad & Hrun)].
      * left. split; [|split].
        -- apply NoDup_cons. split; [|exact Hnd].
           intros Htag. apply (Hfresh tag Htag). set_solver.
        -- intros t Ht. apply elem_of_cons in Ht as [->|Ht]; [exact Hnin|].
           intros Hacc. apply (Hfresh t Ht). set_solver.
        -- rewrite Hrun. f_equal. set_solver.
      * right. split; [|exact Hrun].
        intros [Hnd Hfresh]. apply Hbad.
        apply NoDup_cons in Hnd as [Hnotin Hnd]. split; [exact Hnd|].
        intros t Ht Hacc. apply elem_of_union in Hacc as [Heq|Hacc].
        -- apply elem_of_singleton in Heq. subst t. contradiction.
        -- apply (Hfresh t); [right; exact Ht|exact Hacc].
Qed.

Lemma parse_tags_empty toks h :
  (NoDup toks /\ parse_tags toks ∅ h = Done (list_to_set toks) h)
  \/ (~ NoDup toks /\ parse_tags toks ∅ h = Fatal "logic error: duplicate tag").
Proof.
  destruct (parse_tags_spec toks ∅ h) as [(Hnd & _ & Hrun)|(Hbad & Hrun)].
  - left. split; [exact Hnd|]. rewrite Hrun. f_equal. set_solver.
  - right. split; [|exact Hrun]. intros Hnd. apply Hbad. split; [exact Hnd|].
    intros t _. set_solver.
Qed.

(** [parse] in one step: the outcome is read off the three sections. *)
Lemma parse_eval BucketDuration s r h :
  cells h !! s = Some r ->
  parse BucketDuration s h =
    match Split (Id r) "#" with
    | [sec0; sec1; sec2] =>
        match Split sec0 "," with
        | m :: toks =>
            if decide (NoDup toks) then
              match time_Parse_date sec2 with
              | Some start =>
                  Done tt (mkHeap (<[s := parsed BucketDuration r m toks sec1 start]> (cells h))
                                  (arrays h))
              | None => Fatal "bad time bucket parse in pre-existing database series"
              end
            else Fatal "logic error: duplicate tag"
        | [] => Panic "index out of range"
        end
    | _ => Fatal "logic error: invalid series id"
    end.
Proof.
  intros Hs. unfold parse, mbind at 1. rewrite (load_eval _ _ _ Hs).
  destruct (Split (Id r) "#") as [|sec0 [|sec1 [|sec2 [|sec3 rest]]]]; try reflexivity.
  cbn [length Nat.eqb negb index lookup list_lookup mret mbind].
  destruct (Split sec0 ",") as [|m toks] eqn:Hsplit; [reflexivity|].
  cbn [index lookup list_lookup drop]. rewrite drop_0. unfold mbind, mret.
  rewrite (modify_eval _ _ _ _ Hs).
  destruct (parse_tags_empty toks
              (mkHeap (<[s := set_Measurement m r]> (cells h)) (arrays h)))
    as [[Hnd Hrun]|[Hnd Hrun]]; rewrite Hrun.
  - rewrite decide_True by exact Hnd.
    unfold modify at 1. cbn [cells arrays]. rewrite lookup_insert_eq, insert_insert_eq.
    unfold modify at 1. cbn [cells arrays]. rewrite lookup_insert_eq, insert_insert_eq.
    destruct (time_Parse_date sec2) as [start|]; [|reflexivity].
    unfold modify. cbn [cells arrays]. rewrite lookup_insert_eq, insert_insert_eq.
    reflexivity.
  - rewrite decide_False by exact Hnd. reflexivity.
Qed.

(** [NewSeries] in one step. *)
Lemma NewSeries_eval BucketDuration table id h :
  let l := fresh (dom (cells h)) in
  let r0 := mkSeries table id EmptyString ∅ EmptyString zeroTimeInterval in
  NewSeries BucketDuration table id h =
    match Split id "#" with
    | [sec0; sec1; sec2] =>
        match Split sec0 "," with
        | m :: toks =>
            if decide (NoDup toks) then
              match time_Parse_date sec2 with
              | Some start =>
                  let r := parsed BucketDuration r0 m toks sec1 start in
                  Done r (mkHeap (<[l := r]> (cells h)) (arrays h))
              | None => Fatal "bad time bucket parse in pre-existing database series"
              end
            else Fatal "logic error: duplicate tag"
        | [] => Panic "index out of range"
        end
    | _ => Fatal "logic error: invalid series id"
    end.
Proof.
  intros l r0. unfold NewSeries, mbind, alloc. fold l. fold r0.
  rewrite (parse_eval BucketDuration l r0) by (cbn [cells]; apply lookup_insert_eq).
  cbn [Id r0 cells arrays].
  destruct (Split id "#") as [|sec0 [|sec1 [|sec2 [|sec3 rest]]]]; try reflexivity.
  destruct (Split sec0 ",") as [|m toks]; [reflexivity|].
  destruct (decide (NoDup toks)); [|reflexivity].
  destruct (time_Parse_date sec2) as [start|]; [|reflexivity].
  rewrite insert_insert_eq. unfold load. cbn [cells]. rewrite lookup_insert_eq.
  reflexivity.
Qed.

(** ** Dates *)

Lemma digit_digit_char k : 0 <= k <= 9 -> digit (digit_char k) = Some k.
Proof.
  intros Hk.
  assert (k = 0 \/ k = 1 \/ k = 2 \/ k = 3 \/ k = 4 \/ k = 5 \/ k = 6
          \/ k = 7 \/ k = 8 \/ k = 9) as Hcases by lia.
  repeat (destruct Hcases as [->|Hcases]; [reflexivity|]).
  subst k. reflexivity.
Qed.

Lemma digit_not_byte c k x :
  digit c = Some k -> digit x = None -> Ascii.eqb c x = false.
Proof.
  intros Hc Hx. destruct (Ascii.eqb c x) eqn:E; [|reflexivity].
  apply Ascii.eqb_eq in E. subst x. congruence.
Qed.

Lemma daysIn_le_31 month year : 1 <= month <= 12 -> daysIn month year <= 31.
Proof.
  intros Hm.
  assert (month = 1 \/ month = 2 \/ month = 3 \/ month = 4 \/ month = 5
          \/ month = 6 \/ month = 7 \/ month = 8 \/ month = 9 \/ month = 10
          \/ month = 11 \/ month = 12) as Hcases by lia.
  unfold daysIn.
  repeat (destruct Hcases as [->|Hcases];
          [destruct (isLeap year); cbv; discriminate|]).
  subst month. destruct (isLeap year); cbv; discriminate.
Qed.

Lemma decimal_digit_bounds n : 0 <= n mod 10 <= 9.
Proof. pose proof (Z.mod_pos_bound n 10). lia. Qed.

Lemma time_Parse_fmt_date year month day :
  valid_date year month day ->
  time_Parse_date (fmt_date year month day) = Some (Date year month day).
Proof.
  intros (Hy & Hm & Hd).
  pose proof (daysIn_le_31 month year Hm) as H31.
  unfold time_Parse_date, fmt_date.
  rewrite !digit_digit_char by apply decimal_digit_bounds.
  cbv zeta.
  replace (1000 * (year / 1000 mod 10) + 100 * (year / 100 mod 10)
           + 10 * (year / 10 mod 10) + year mod 10) with year
    by (Z.div_mod_to_equations; lia).
  replace (10 * (month / 10 mod 10) + month mod 10) with month
    by (Z.div_mod_to_equations; lia).
  replace (10 * (day / 10 mod 10) + day mod 10) with day
    by (Z.div_mod_to_equations; lia).
  rewrite Ascii.eqb_refl.
  destruct Hm as [Hm1 Hm2], Hd as [Hd1 Hd2].
  apply Z.leb_le in Hm1, Hm2, Hd1, Hd2.
  rewrite Hm1, Hm2, Hd1, Hd2. reflexivity.
Qed.

Lemma fmt_date_no_hash year month day :
  has_byte "#" (fmt_date year month day) = false.
Proof.
  unfold fmt_date. cbn [has_byte].
  rewrite !(digit_not_byte _ _ "#" (digit_digit_char _ (decimal_digit_bounds _)) eq_refl).
  reflexivity.
Qed.

Lemma Split_identifier m tags f date :
  has_byte "#" m = false ->
  Forall (fun t => has_byte "#" t = false) tags ->
  has_byte "#" f = false ->
  has_byte "#" date = false ->
  Split (identifier m tags f date) "#" = [m +:+ join_tags tags; f; date].
Proof.
  intros Hm Htags Hf Hdate. unfold identifier.
  rewrite Split_app_sep.
  - rewrite Split_app_sep by exact Hf.
    rewrite (Split_no_sep date) by exact Hdate. reflexivity.
  - rewrite has_byte_app, Hm. apply has_byte_join_tags; [reflexivity|exact Htags].
Qed.

(** C2: parsing a well-formed identifier [m,t1,...,tn#f#YYYY-MM-DD], whose
    tag tokens are pairwise distinct and whose date is a day of the
    calendar, returns a row with measurement [m], the tag set
    [{t1,...,tn}], field [f] and the half-open interval from midnight UTC of
    that day to [BucketDuration] later. *)
Theorem NewSeries_well_formed BucketDuration table m tags f year month day h :
  token m -> Forall token tags -> NoDup tags ->
  has_byte "#" f = false ->
  valid_date year month day ->
  exists row h',
    NewSeries BucketDuration table
              (identifier m tags f (fmt_date year month day)) h = Done row h'
    /\ Table row = table
    /\ Id row = identifier m tags f (fmt_date year month day)
    /\ Measurement row = m
    /\ Tags row = list_to_set tags
    /\ Field row = f
    /\ SeriesTimeInterval row =
         mkTimeInterval (Date year month day)
                        (Date year month day + BucketDuration)
    /\ (forall t, within t (SeriesTimeInterval row) <->
                  Date year month day <= t < Date year month day + BucketDuration).
Proof.
  intros [Hm1 Hm2] Htags Hnd Hf Hdate.
  assert (Forall (fun t => has_byte "#" t = false) tags) as Htags1
    by (eapply Forall_impl; [exact Htags|intros t [H _]; exact H]).
  assert (Forall (fun t => has_byte "," t = false) tags) as Htags2
    by (eapply Forall_impl; [exact Htags|intros t [_ H]; exact H]).
  pose proof (NewSeries_eval BucketDuration table
                (identifier m tags f (fmt_date year month day)) h) as Hrun.
  cbv zeta in Hrun.
  rewrite (Split_identifier m tags f _ Hm1 Htags1 Hf (fmt_date_no_hash _ _ _)) in Hrun.
  rewrite (Split_measurement_and_tags m tags Hm2 Htags2) in Hrun.
  rewrite (decide_True _ _ Hnd) in Hrun.
  rewrite (time_Parse_fmt_date _ _ _ Hdate) in Hrun.
  eexists _, _. split; [exact Hrun|].
  cbn [parsed Table Id Measurement Tags Field SeriesTimeInterval].
  repeat split; unfold within in *; cbn [Start End] in *; lia.
Qed.

Lemma NewSeries_well_formed_witness :
  exists row h',
    NewSeries day_bucket "T"
      (identifier "cpu" ["hostname=host_0"; "region=eu-central-1"] "usage_idle"
                  (fmt_date 2016 1 1)) emptyHeap = Done row h'
    /\ Table row = "T"
    /\ Id row = identifier "cpu" ["hostname=host_0"; "region=eu-central-1"]
                           "usage_idle" (fmt_date 2016 1 1)
    /\ Measurement row = "cpu"
    /\ Tags row = list_to_set ["hostname=host_0"; "region=eu-central-1"]
    /\ Field row = "usage_idle"
    /\ SeriesTimeInterval row =
         mkTimeInterval (Date 2016 1 1) (Date 2016 1 1 + day_bucket)
    /\ (forall t, within t (SeriesTimeInterval row) <->
                  Date 2016 1 1 <= t < Date 2016 1 1 + day_bucket).
Proof.
  apply (NewSeries_well_formed day_bucket "T" "cpu"
           ["hostname=host_0"; "region=eu-central-1"] "usage_idle" 2016 1 1 emptyHeap).
  - split; reflexivity.
  - repeat constructor.
  - apply (bool_decide_unpack _). vm_compute. exact I.
  - reflexivity.
  - repeat split; vm_compute; discriminate.
Defined.

(** C3: parsing fails fatally exactly on the three malformed shapes (not
    three sections, a repeated tag token, a date that does not parse), and
    returns a row on every other identifier. *)
Theorem NewSeries_fatal_iff_malformed BucketDuration table id h :
  ((exists msg, NewSeries BucketDuration table id h = Fatal msg) <-> malformed id)
  /\ ((exists row h', NewSeries BucketDuration table id h = Done row h')
      <-> ~ malformed id).
Proof.
  pose proof (NewSeries_eval BucketDuration table id h) as Hrun. cbv zeta in Hrun.
  rewrite Hrun. clear Hrun.
  unfold malformed, tag_section, date_section.
  destruct (Split id "#") as [|sec0 [|sec1 [|sec2 [|sec3 rest]]]];
    cbn [length nth];
    try (split; split;
         [ intros _; left; discriminate
         | intros _; eexists; reflexivity
         | intros (? & ? & ?); discriminate
         | intros Hn; exfalso; apply Hn; left; discriminate ]).
  destruct (Split sec0 ",") as [|m toks] eqn:Hsec0;
    [exfalso; exact (Split_nonempty _ _ Hsec0)|].
  cbn [drop]. rewrite drop_0.
  destruct (decide (NoDup toks)) as [Hnd|Hnd].
  - destruct (time_Parse_date sec2) as [start|].
    + split; split.
      * intros [msg Hmsg]. discriminate.
      * intros [Hlen|[Hdup|Hdate]]; [congruence|contradiction|discriminate].
      * intros _ [Hlen|[Hdup|Hdate]]; [congruence|contradiction|discriminate].
      * intros _. eexists _, _. reflexivity.
    + split; split.
      * intros _. right. right. reflexivity.
      * intros _. eexists. reflexivity.
      * intros (? & ? & ?). discriminate.
      * intros Hn. exfalso. apply Hn. right. right. reflexivity.
  - split; split.
    + intros _. right. left. exact Hnd.
    + intros _. eexists. reflexivity.
    + intros (? & ? & ?). discriminate.
    + intros Hn. exfalso. apply Hn. right. left. exact Hnd.
Qed.

(** ** The matching predicates *)

(** Run the [load] at the head of a computation whose receiver holds a
    row. *)
Ltac run_load Hs := unfold mbind; rewrite (load_eval _ _ _ Hs).

Lemma Overlap_spec a b :
  Overlap a b = true <-> exists t, within t a /\ within t b.
Proof.
  unfold Overlap, within. rewrite Z.ltb_lt. split.
  - intros H. exists (Z.max (Start a) (Start b)). lia.
  - intros (t & Ha & Hb). lia.
Qed.

Lemma Overlap_touching a b :
  End a = Start b \/ End b = Start a -> Overlap a b = false.
Proof. unfold Overlap. intros H. apply Z.ltb_ge. lia. Qed.

(** C4: [MatchesTimeInterval] is true exactly when the row's half-open
    interval and the query interval share an instant; intervals that only
    touch at a boundary do not match. *)
Theorem MatchesTimeInterval_iff_overlap h s row q :
  cells h !! s = Some row ->
  exists b,
    MatchesTimeInterval s q h = Done b h
    /\ (b = true <->
        exists t, within t (SeriesTimeInterval row) /\ within t q)
    /\ (End (SeriesTimeInterval row) = Start q
        \/ End q = Start (SeriesTimeInterval row) -> b = false).
Proof.
  intros Hs. exists (Overlap (SeriesTimeInterval row) q). split; [|split].
  - unfold MatchesTimeInterval. run_load Hs. reflexivity.
  - apply Overlap_spec.
  - apply Overlap_touching.
Qed.

(** The inner loop finds a tag of the row in the group, or not. *)
Lemma tagset_loop_eval h s row tagset :
  cells h !! s = Some row ->
  exists b, tagset_loop s tagset h = Done b h
            /\ (b = true <-> Exists (fun tag => tag ∈ Tags row) tagset).
Proof.
  intros Hs. induction tagset as [|tag rest IH]; cbn [tagset_loop].
  - exists false. split; [reflexivity|]. split; [discriminate|].
    intros H. inversion H.
  - run_load Hs.
    destruct (decide (tag ∈ Tags row)) as [Hin|Hnin].
    + exists true. split; [reflexivity|]. split; [|reflexivity].
      intros _. apply Exists_cons_hd. exact Hin.
    + destruct IH as (b & Hrun & Hb). exists b. split; [exact Hrun|].
      rewrite Hb. split.
      * apply Exists_cons_tl.
      * intros H. inversion H; subst; [contradiction|assumption].
Qed.

Lemma MatchesTagSets_eval h s row tagsets :
  cells h !! s = Some row ->
  exists b, MatchesTagSets s tagsets h = Done b h
            /\ (b = true <-> satisfies (Tags row) tagsets).
Proof.
  intros Hs. unfold satisfies.
  induction tagsets as [|tagset rest IH]; cbn [MatchesTagSets].
  - exists true. split; [reflexivity|]. split; [constructor|reflexivity].
  - destruct (tagset_loop_eval h s row tagset Hs) as (m & Hm & Hmatch).
    unfold mbind. rewrite Hm. destruct m; cbn [negb].
    + destruct IH as (b & Hrun & Hb). exists b. split; [exact Hrun|].
      rewrite Hb. split.
      * intros H. constructor; [apply Hmatch; reflexivity|exact H].
      * intros H. inversion H; assumption.
    + exists false. split; [reflexivity|]. split; [discriminate|].
      intros H. inversion H as [|? ? Hhd _]; subst.
      apply Hmatch in Hhd. discriminate.
Qed.

(** C5: [MatchesTagSets] is true exactly when the row has, for every group
    of [tagsets], at least one tag of the group; with no group at all it is
    true, whatever the row. *)
Theorem MatchesTagSets_iff_satisfies h s row tagsets :
  cells h !! s = Some row ->
  (exists b, MatchesTagSets s tagsets h = Done b h
             /\ (b = true <->
                 forall tagset, tagset ∈ tagsets ->
                                exists tag, tag ∈ tagset /\ tag ∈ Tags row))
  /\ MatchesTagSets s [] h = Done true h.
Proof.
  intros Hs. split; [|reflexivity].
  destruct (MatchesTagSets_eval h s row tagsets Hs) as (b & Hrun & Hb).
  exists b. split; [exact Hrun|]. rewrite Hb. unfold satisfies.
  rewrite Forall_forall. split.
  - intros H tagset Hin. apply Exists_exists. apply H. exact Hin.
  - intros H tagset Hin. apply Exists_exists. apply H. exact Hin.
Qed.

(** C10: a tag filter that contains an empty group matches no row. *)
Theorem MatchesTagSets_empty_group h s row tagsets :
  cells h !! s = Some row ->
  [] ∈ tagsets ->
  MatchesTagSets s tagsets h = Done false h.
Proof.
  intros Hs Hin.
  destruct (MatchesTagSets_eval h s row tagsets Hs) as (b & Hrun & Hb).
  rewrite Hrun. destruct b; [|reflexivity].
  exfalso. destruct Hb as [Hb _]. specialize (Hb eq_refl).
  unfold satisfies in Hb. rewrite Forall_forall in Hb.
  specialize (Hb [] Hin). inversion Hb.
Qed.

(** C9: none of the four predicates changes the heap: each returns a
    boolean and leaves every cell, the receiver's included, as it was. *)
Theorem predicates_read_only h s row ti m f tagsets :
  cells h !! s = Some row ->
  (exists b, MatchesTimeInterval s ti h = Done b h)
  /\ (exists b, MatchesMeasurementName s m h = Done b h)
  /\ (exists b, MatchesFieldName s f h = Done b h)
  /\ (exists b, MatchesTagSets s tagsets h = Done b h).
Proof.
  intros Hs. repeat split.
  - unfold MatchesTimeInterval. run_load Hs. eexists. reflexivity.
  - unfold MatchesMeasurementName. run_load Hs. eexists. reflexivity.
  - unfold MatchesFieldName. run_load Hs. eexists. reflexivity.
  - destruct (MatchesTagSets_eval h s row tagsets Hs) as (b & Hrun & _).
    exists b. exact Hrun.
Qed.

(** ** Building the index *)

Lemma assign_assign s v w h : assign s w (assign s v h) = assign s w h.
Proof. unfold assign. cbn [cells arrays]. rewrite insert_insert_eq. reflexivity. Qed.

Lemma assign_same s v h : cells h !! s = Some v -> assign s v h = h.
Proof.
  intros H. unfold assign. rewrite (insert_id _ _ _ H). destruct h; reflexivity.
Qed.

Lemma default_last_cons (v x : Series) rest :
  default v (last (x :: rest)) = default x (last rest).
Proof. rewrite last_cons. destruct (last rest); reflexivity. Qed.

(** The first loop: the map is the fold of [add_ref] with the one pointer
    [s], and the variable at [s] ends up holding the last row. *)
Lemma time_loop_eval s rows : forall bm h v,
  cells h !! s = Some v ->
  time_loop s rows bm h =
    Done (foldl (fun bm x => add_ref (SeriesTimeInterval x) s bm) bm rows)
         (assign s (default v (last rows)) h).
Proof.
  induction rows as [|x rest IH]; intros bm h v Hs; cbn [time_loop foldl].
  - cbn [last default]. rewrite (assign_same _ _ _ Hs). reflexivity.
  - unfold mbind. rewrite (modify_eval _ _ _ _ Hs). fold (assign s x h).
    assert (cells (assign s x h) !! s = Some x) as Hx
      by (cbn [assign cells]; apply lookup_insert_eq).
    rewrite (load_eval _ _ _ Hx), (IH _ _ x Hx).
    rewrite assign_assign, default_last_cons. reflexivity.
Qed.

Lemma tag_loop_eval s rows : forall tm h v,
  cells h !! s = Some v ->
  tag_loop s rows tm h =
    Done (foldl (fun tm x => tags_of_loop s (Tags x) tm) tm rows)
         (assign s (default v (last rows)) h).
Proof.
  induction rows as [|x rest IH]; intros tm h v Hs; cbn [tag_loop foldl].
  - cbn [last default]. rewrite (assign_same _ _ _ Hs). reflexivity.
  - unfold mbind. rewrite (modify_eval _ _ _ _ Hs). fold (assign s x h).
    assert (cells (assign s x h) !! s = Some x) as Hx
      by (cbn [assign cells]; apply lookup_insert_eq).
    rewrite (load_eval _ _ _ Hx), (IH _ _ x Hx).
    rewrite assign_assign, default_last_cons. reflexivity.
Qed.

Lemma ids_loop_map rows : ids_loop rows = map Id rows.
Proof.
  unfold ids_loop.
  assert (forall acc, foldl (fun ids s => (ids ++ [Id s])%list) acc rows
                      = (acc ++ map Id rows)%list) as H.
  { induction rows as [|x rest IH]; intros acc; cbn [foldl map].
    - rewrite app_nil_r. reflexivity.
    - rewrite IH, <- app_assoc. reflexivity. }
  apply (H []).
Qed.

Lemma slice_elems_length h sl l :
  slice_elems h sl = Some l -> length l = len sl.
Proof.
  unfold slice_elems. destruct (arrays h !! base sl) as [a|]; [|discriminate].
  destruct (bool_decide (off sl + cap sl <= length a)%nat) eqn:E1; [|discriminate].
  destruct (bool_decide (len sl <= cap sl)%nat) eqn:E2; [|discriminate].
  apply bool_decide_eq_true in E1, E2.
  intros [= <-]. rewrite length_take, length_drop. lia.
Qed.

(** [NewClientSideIndex] in one step, on a collection that is not empty. *)
Lemma NewClientSideIndex_eval h sc rows :
  slice_elems h sc = Some rows ->
  len sc <> 0%nat ->
  let v := default zeroSeries (last rows) in
  let s1 := first_var h in
  let s2 := second_var h v in
  NewClientSideIndex sc h =
    Done (mkClientSideIndex
            (foldl (fun bm x => add_ref (SeriesTimeInterval x) s1 bm) ∅ rows)
            (foldl (fun tm x => tags_of_loop s2 (Tags x) tm) ∅ rows)
            sc (ids_loop rows))
         (assign s2 v (assign s1 v h)).
Proof.
  intros Hrows Hlen v s1 s2. unfold NewClientSideIndex.
  apply Nat.eqb_neq in Hlen. rewrite Hlen.
  unfold mbind at 1. rewrite (read_slice_eval _ _ _ Hrows).
  unfold mbind at 1, alloc at 1. fold (first_var h). fold s1.
  fold (assign s1 zeroSeries h).
  unfold mbind at 1.
  rewrite (time_loop_eval s1 rows ∅ _ zeroSeries)
    by (cbn [assign cells]; apply lookup_insert_eq).
  rewrite assign_assign. fold v.
  unfold mbind at 1, alloc at 1.
  change (mkHeap (<[fresh (dom (cells (assign s1 v h))) := zeroSeries]>
                    (cells (assign s1 v h)))
                 (arrays (assign s1 v h)))
    with (assign s2 zeroSeries (assign s1 v h)).
  change (fresh (dom (cells (assign s1 v h)))) with s2.
  unfold mbind at 1.
  rewrite (tag_loop_eval s2 rows ∅ _ zeroSeries)
    by (cbn [assign cells]; apply lookup_insert_eq).
  rewrite assign_assign. fold v. reflexivity.
Qed.

(** C6: building an index from an empty collection is fatal, and from any
    collection that is not empty it returns an index. *)
Theorem NewClientSideIndex_fatal_iff_empty h sc rows :
  slice_elems h sc = Some rows ->
  (rows = [] ->
   NewClientSideIndex sc h = Fatal "logic error: no data to build ClientSideIndex")
  /\ (rows <> [] -> exists csi h', NewClientSideIndex sc h = Done csi h').
Proof.
  intros Hrows. pose proof (slice_elems_length _ _ _ Hrows) as Hlen. split.
  - intros ->. cbn [length] in Hlen. unfold NewClientSideIndex.
    rewrite <- Hlen. reflexivity.
  - intros Hne. eexists _, _. apply (NewClientSideIndex_eval h sc rows Hrows).
    rewrite <- Hlen. destruct rows; [contradiction|discriminate].
Qed.

(** C8: the index keeps the input collection, in input order, and its
    list of identifiers runs in parallel: same length, and at every
    position the [Id] of the row at that position. *)
Theorem NewClientSideIndex_rows_and_ids h sc rows :
  slice_elems h sc = Some rows ->
  rows <> [] ->
  exists csi h',
    NewClientSideIndex sc h = Done csi h'
    /\ slice_elems h' (seriesCollection csi) = Some rows
    /\ length (seriesIds csi) = length rows
    /\ forall i, seriesIds csi !! i = Id <$> rows !! i.
Proof.
  intros Hrows Hne. pose proof (slice_elems_length _ _ _ Hrows) as Hlen.
  eexists _, _. split.
  - apply (NewClientSideIndex_eval h sc rows Hrows).
    rewrite <- Hlen. destruct rows; [contradiction|discriminate].
  - cbn [seriesCollection seriesIds]. rewrite ids_loop_map. split; [|split].
    + exact Hrows.
    + apply length_map.
    + intros i. apply list_lookup_fmap.
Qed.

(** ** What the buckets hold *)

Section Buckets.
Context `{Countable K}.
Implicit Types (m : gmap K (gset loc)) (k : K) (p : loc).

Lemma bucket_add_ref k p m k' :
  bucket (add_ref k p m) k' =
    if decide (k = k') then {[p]} ∪ bucket m k' else bucket m k'.
Proof.
  unfold add_ref, bucket. destruct (m !! k) as [inner|] eqn:Hk.
  - rewrite Hk. destruct (decide (p ∈ inner)) as [Hin|Hnin].
    + destruct (decide (k = k')) as [<-|Hne]; [|reflexivity].
      rewrite Hk. cbn [default]. set_solver.
    + destruct (decide (k = k')) as [<-|Hne].
      * rewrite lookup_insert_eq, Hk. reflexivity.
      * rewrite lookup_insert_ne by exact Hne. reflexivity.
  - rewrite lookup_insert_eq. rewrite decide_False by set_solver.
    destruct (decide (k = k')) as [<-|Hne].
    + rewrite lookup_insert_eq, Hk. reflexivity.
    + rewrite !lookup_insert_ne by exact Hne. reflexivity.
Qed.

Lemma bucket_add_refs p (keys : list K) : forall m k',
  bucket (foldl (fun m k => add_ref k p m) m keys) k' =
    if decide (k' ∈ keys) then {[p]} ∪ bucket m k' else bucket m k'.
Proof.
  induction keys as [|k keys IH]; intros m k'; cbn [foldl].
  - rewrite decide_False by (intros Hin; inversion Hin). reflexivity.
  - rewrite IH, bucket_add_ref.
    destruct (decide (k' ∈ keys)) as [Hin|Hnin].
    + rewrite (decide_True _ _ (list_elem_of_further _ k _ Hin)).
      destruct (decide (k = k')); set_solver.
    + destruct (decide (k = k')) as [<-|Hne].
      * rewrite (decide_True _ _ (list_elem_of_here k keys)). reflexivity.
      * rewrite decide_False; [reflexivity|].
        intros Hin. apply elem_of_cons in Hin as [->|Hin]; contradiction.
Qed.
End Buckets.

Lemma bucket_empty `{Countable K} (k : K) : bucket (∅ : gmap K (gset loc)) k = ∅.
Proof. unfold bucket. rewrite lookup_empty. reflexivity. Qed.

(** After the first loop every bucket of an interval that occurs holds the
    single pointer [s]. *)
Lemma time_buckets s rows k :
  bucket (foldl (fun bm x => add_ref (SeriesTimeInterval x) s bm) ∅ rows) k =
    if decide (k ∈ map SeriesTimeInterval rows) then {[s]} else ∅.
Proof.
  rewrite <- (foldl_fmap (fun m k => add_ref k s m) ∅ rows SeriesTimeInterval).
  rewrite bucket_add_refs, bucket_empty.
  destruct (decide (k ∈ SeriesTimeInterval <$> rows));
    [rewrite decide_True by assumption; set_solver
    |rewrite decide_False by assumption; reflexivity].
Qed.

Lemma tag_buckets_acc s rows tag : forall tm,
  bucket (foldl (fun tm x => tags_of_loop s (Tags x) tm) tm rows) tag =
    if decide (Exists (fun x => tag ∈ Tags x) rows)
    then {[s]} ∪ bucket tm tag else bucket tm tag.
Proof.
  induction rows as [|x rest IH]; intros tm; cbn [foldl].
  - rewrite decide_False by (intros Hex; inversion Hex). reflexivity.
  - rewrite IH. unfold tags_of_loop. rewrite bucket_add_refs.
    destruct (decide (Exists (fun x => tag ∈ Tags x) (x :: rest))) as [Hall|Hall],
             (decide (Exists (fun x => tag ∈ Tags x) rest)) as [Hex|Hnex],
             (decide (tag ∈ elements (Tags x))) as [Hin|Hnin];
      try set_solver.
    exfalso. inversion Hall; subst; [|contradiction].
    apply Hnin. apply elem_of_elements. assumption.
Qed.

Lemma tag_buckets s rows tag :
  bucket (foldl (fun tm x => tags_of_loop s (Tags x) tm) ∅ rows) tag =
    if decide (Exists (fun x => tag ∈ Tags x) rows) then {[s]} else ∅.
Proof.
  rewrite tag_buckets_acc, bucket_empty.
  destruct (decide (Exists (fun x => tag ∈ Tags x) rows)); set_solver.
Qed.

Lemma second_var_ne h v : second_var h v <> first_var h.
Proof.
  unfold second_var. intros Heq.
  apply (is_fresh (dom (cells (assign (first_var h) v h)))).
  rewrite Heq. cbn [assign cells]. rewrite dom_insert_L. set_solver.
Qed.

(** Every bucket of the built index holds one pointer, the address of the
    loop's variable, and that variable holds the last row of the
    collection: whatever its key, a bucket refers to the last row only. *)
Lemma index_buckets_refer_to_last_row h sc rows lastrow csi h' :
  slice_elems h sc = Some rows ->
  last rows = Some lastrow ->
  NewClientSideIndex sc h = Done csi h' ->
  (forall k r, refers_to h' (bucket (timeIntervalMapping csi) k) r
               <-> k ∈ map SeriesTimeInterval rows /\ r = lastrow)
  /\ (forall tag r, refers_to h' (bucket (tagMapping csi) tag) r
                    <-> Exists (fun x => tag ∈ Tags x) rows /\ r = lastrow).
Proof.
  intros Hrows Hlast Hrun.
  assert (len sc <> 0%nat) as Hlen.
  { rewrite <- (slice_elems_length _ _ _ Hrows).
    destruct rows; [discriminate Hlast|discriminate]. }
  rewrite (NewClientSideIndex_eval h sc rows Hrows Hlen) in Hrun.
  rewrite Hlast in Hrun. cbn [default] in Hrun.
  injection Hrun as <- <-. cbn [timeIntervalMapping tagMapping].
  set (s1 := first_var h). set (s2 := second_var h lastrow).
  assert (cells (assign s2 lastrow (assign s1 lastrow h)) !! s1 = Some lastrow) as H1.
  { cbn [assign cells]. rewrite lookup_insert_ne by apply second_var_ne.
    apply lookup_insert_eq. }
  assert (cells (assign s2 lastrow (assign s1 lastrow h)) !! s2 = Some lastrow) as H2.
  { cbn [assign cells]. apply lookup_insert_eq. }
  split.
  - intros k r. rewrite time_buckets. unfold refers_to.
    destruct (decide (k ∈ map SeriesTimeInterval rows)) as [Hk|Hk].
    + split.
      * intros (p & Hp & Hcell). apply elem_of_singleton in Hp. subst p.
        split; [exact Hk|congruence].
      * intros [_ ->]. exists s1. split; [set_solver|exact H1].
    + split; [intros (p & Hp & _); set_solver|intros [Hk' _]; contradiction].
  - intros tag r. rewrite tag_buckets. unfold refers_to.
    destruct (decide (Exists (fun x => tag ∈ Tags x) rows)) as [Hk|Hk].
    + split.
      * intros (p & Hp & Hcell). apply elem_of_singleton in Hp. subst p.
        split; [exact Hk|congruence].
      * intros [_ ->]. exists s2. split; [set_solver|exact H2].
    + split; [intros (p & Hp & _); set_solver|intros [Hk' _]; contradiction].
Qed.

(** ** The end-to-end example *)

Lemma example_rows_eval :
  exists h0, example_rows emptyHeap = Done [example_row1; example_row2] h0.
Proof. eexists. vm_compute. reflexivity. Qed.

(** C1, at the two rows of the end-to-end example: the index is built, but
    the bucket of the first row's interval and the bucket of the first
    row's tag refer to the second row and to nothing else, so the buckets
    do not hold the rows of their keys. *)
Theorem example_index_buckets_refer_to_last_row :
  exists csi r1 r2 h',
    example_index emptyHeap = Done (csi, [r1; r2]) h'
    /\ Id r1 = "cpu,hostname=host_0#usage_idle#2016-01-01"
    /\ Id r2 = "mem,hostname=host_1#available#2016-01-02"
    /\ (forall r, refers_to h' (bucket (timeIntervalMapping csi)
                                       (SeriesTimeInterval r1)) r <-> r = r2)
    /\ (forall r, refers_to h' (bucket (tagMapping csi) "hostname=host_0") r
                  <-> r = r2)
    /\ ~ index_exact h' csi [r1; r2].
Proof.
  destruct example_rows_eval as [h0 Hrows].
  set (rows := [example_row1; example_row2]) in *.
  set (l := fresh (dom (arrays h0))).
  set (h1 := mkHeap (cells h0) (<[l := rows]> (arrays h0))).
  set (sl := mkSlice l 0 2 2).
  assert (slice_elems h1 sl = Some rows) as Hsl.
  { unfold slice_elems, h1, sl. cbn [arrays base off len cap].
    rewrite lookup_insert_eq. reflexivity. }
  assert (len sl <> 0%nat) as Hlen by discriminate.
  pose proof (NewClientSideIndex_eval h1 sl rows Hsl Hlen) as Hrun.
  cbv zeta in Hrun.
  destruct (index_buckets_refer_to_last_row h1 sl rows example_row2 _ _
              Hsl eq_refl Hrun) as [Htime Htag].
  eexists _, example_row1, example_row2, _. split.
  { unfold example_index, mbind. rewrite Hrows. unfold alloc_array.
    fold l. fold h1. fold sl. rewrite Hrun. reflexivity. }
  split; [reflexivity|]. split; [reflexivity|].
  assert (SeriesTimeInterval example_row1 ∈ map SeriesTimeInterval rows) as Hk
    by apply list_elem_of_here.
  split; [|split].
  - intros r. rewrite Htime. split; [intros [_ ->]; reflexivity|].
    intros ->. split; [exact Hk|reflexivity].
  - intros r. rewrite Htag. split; [intros [_ ->]; reflexivity|].
    intros ->. split; [|reflexivity].
    apply Exists_cons_hd. cbn [example_row1 Tags]. set_solver.
  - intros Hexact.
    destruct (Hexact example_row1 (list_elem_of_here _ _)) as [Ht _].
    destruct (Ht (SeriesTimeInterval example_row1)) as [_ Hrefers].
    specialize (Hrefers eq_refl). apply Htime in Hrefers as [_ Heq].
    apply (f_equal Measurement) in Heq. discriminate Heq.
Qed.

(** ** Copying the collection *)

Lemma safely_bind {A B} (m : M A) (k : A -> M B) h (Q : B -> heap -> Prop) :
  safely (m h) (fun a h' => safely (k a h') Q) -> safely (mbind m k h) Q.
Proof. unfold mbind. destruct (m h); exact id. Qed.

Lemma safely_weaken {A} (o : outcome A) (P Q : A -> heap -> Prop) :
  (forall a h, P a h -> Q a h) -> safely o P -> safely o Q.
Proof. intros HPQ. destruct o; cbn; [apply HPQ|exact id|exact id]. Qed.

Lemma arrays_kept_refl b h : arrays_kept_but b h h.
Proof. intros l _ _. reflexivity. Qed.

Lemma slice_elems_kept h h' sl :
  arrays h' !! base sl = arrays h !! base sl ->
  slice_elems h' sl = slice_elems h sl.
Proof. intros H. unfold slice_elems. rewrite H. reflexivity. Qed.

Lemma set_at_kept sl i v h :
  safely (set_at sl i v h)
         (fun _ h' => arrays_kept_but (base sl) h h' /\ dom (arrays h) ⊆ dom (arrays h')).
Proof.
  unfold set_at. destruct (bool_decide (i < len sl)%nat); [|exact I].
  destruct (arrays h !! base sl) as [a|] eqn:Ha; [|exact I].
  cbn [safely]. split.
  - intros l Hl _. cbn [arrays]. apply lookup_insert_ne. congruence.
  - cbn [arrays]. rewrite dom_insert_L. set_solver.
Qed.

Lemma get_at_pure sl i h (P : Series -> heap -> Prop) :
  (forall v, P v h) -> safely (get_at sl i h) P.
Proof.
  intros HP. unfold get_at, mbind, read_slice.
  destruct (slice_elems h sl) as [l|]; [|exact I].
  unfold index. destruct (l !! i); [apply HP|exact I].
Qed.

Lemma arrays_kept_trans b h1 h2 h3 :
  arrays_kept_but b h1 h2 -> dom (arrays h1) ⊆ dom (arrays h2) ->
  arrays_kept_but b h2 h3 -> arrays_kept_but b h1 h3.
Proof.
  intros H12 Hdom H23 l Hl Hin.
  rewrite (H23 l Hl) by (apply Hdom; exact Hin). apply H12; assumption.
Qed.

(** An operation on a slice touches the backing array of that slice, or a
    new one, and nothing else; the slice it returns sits on one of these
    two. *)
Lemma apply_op_kept op sl h :
  safely (apply_op op sl h)
         (fun sl' h' =>
            arrays_kept_but (base sl) h h'
            /\ dom (arrays h) ⊆ dom (arrays h')
            /\ (base sl' = base sl \/ base sl' ∉ dom (arrays h))).
Proof.
  destruct op as [i v|i j|v]; cbn [apply_op].
  - apply safely_bind. eapply safely_weaken; [|apply set_at_kept].
    intros _ h' [Hk Hd]. cbn. auto.
  - apply safely_bind. unfold swap.
    apply safely_bind, get_at_pure. intros a.
    apply safely_bind, get_at_pure. intros b.
    apply safely_bind. eapply safely_weaken; [|apply set_at_kept].
    intros _ h1 [Hk1 Hd1]. cbn beta.
    eapply safely_weaken; [|apply set_at_kept].
    intros _ h2 [Hk2 Hd2]. cbn. split; [|split].
    + eapply arrays_kept_trans; eassumption.
    + set_solver.
    + left. reflexivity.
  - unfold append. destruct (bool_decide (len sl < cap sl)%nat).
    + apply safely_bind. eapply safely_weaken; [|apply set_at_kept].
      intros _ h' [Hk Hd]. cbn. auto.
    + unfold mbind, read_slice. destruct (slice_elems h sl) as [old|]; [|exact I].
      cbn [alloc_array safely mret arrays base]. split; [|split].
      * intros l Hl Hin. apply lookup_insert_ne. intros <-.
        exact (is_fresh _ Hin).
      * rewrite dom_insert_L. set_solver.
      * right. apply is_fresh.
Qed.

Lemma run_ops_kept b ops : forall sl h,
  b ∈ dom (arrays h) -> base sl <> b ->
  safely (run_ops ops sl h) (fun _ h' => arrays h' !! b = arrays h !! b).
Proof.
  induction ops as [|op rest IH]; intros sl h Hb Hne; cbn [run_ops].
  - reflexivity.
  - apply safely_bind. eapply safely_weaken; [|apply apply_op_kept].
    intros sl' h' (Hk & Hd & Hbase). cbn beta.
    assert (base sl' <> b) as Hne'.
    { destruct Hbase as [Heq|Hfresh]; [rewrite Heq; exact Hne|].
      intros Heq. rewrite Heq in Hfresh. contradiction. }
    eapply safely_weaken; [|apply (IH sl' h'); [apply Hd; exact Hb|exact Hne']].
    intros sl2 h2 Hh2. cbn beta in *. rewrite Hh2. apply Hk; [congruence|exact Hb].
Qed.

Lemma write_at_app vs : forall pre a,
  length a = length vs ->
  write_at (pre ++ a)%list (length pre) vs = (pre ++ vs)%list.
Proof.
  induction vs as [|v vs IH]; intros pre a Hlen; cbn [write_at].
  - destruct a; [reflexivity|discriminate].
  - destruct a as [|x a]; [discriminate|]. injection Hlen as Hlen.
    replace (length pre) with (length pre + 0)%nat at 1 by lia.
    rewrite insert_app_r. cbn [insert list_insert].
    replace (S (length pre)) with (length (pre ++ [v])%list)
      by (rewrite length_app; cbn; lia).
    rewrite (cons_middle v pre a), app_assoc, (IH _ _ Hlen), <- app_assoc.
    reflexivity.
Qed.

Lemma slice_elems_base h sl l :
  slice_elems h sl = Some l -> base sl ∈ dom (arrays h).
Proof.
  unfold slice_elems. destruct (arrays h !! base sl) eqn:E; [|discriminate].
  intros _. apply elem_of_dom. eauto.
Qed.

Lemma slice_elems_whole h l a n :
  arrays h !! l = Some a -> length a = n ->
  slice_elems h (mkSlice l 0 n n) = Some a.
Proof.
  intros Ha Hn. unfold slice_elems. cbn [base off len cap]. rewrite Ha.
  rewrite !bool_decide_eq_true_2 by lia. cbn [andb].
  rewrite drop_0, take_ge by lia. reflexivity.
Qed.

(** [CopyOfSeriesCollection] in one step: a new backing array with the rows
    of the collection, and a slice over the whole of it. *)
Lemma CopyOfSeriesCollection_eval h csi rows :
  slice_elems h (seriesCollection csi) = Some rows ->
  let l := fresh (dom (arrays h)) in
  let n := len (seriesCollection csi) in
  CopyOfSeriesCollection csi h =
    Done (mkSlice l 0 n n) (mkHeap (cells h) (<[l := rows]> (arrays h))).
Proof.
  intros Hrows l n.
  pose proof (slice_elems_length _ _ _ Hrows) as Hlen. fold n in Hlen.
  pose proof (slice_elems_base _ _ _ Hrows) as Hbase.
  assert (l <> base (seriesCollection csi)) as Hfresh
    by (intros Heq; apply (is_fresh (dom (arrays h))); fold l; rewrite Heq; exact Hbase).
  unfold CopyOfSeriesCollection, mbind at 1, make. fold l. fold n.
  set (h1 := mkHeap (cells h) (<[l := replicate n zeroSeries]> (arrays h))).
  set (ret := mkSlice l 0 n n).
  assert (slice_elems h1 (seriesCollection csi) = Some rows) as Hsrc.
  { rewrite <- Hrows. apply slice_elems_kept. cbn [h1 arrays].
    apply lookup_insert_ne. exact Hfresh. }
  assert (slice_elems h1 ret = Some (replicate n zeroSeries)) as Hdst.
  { apply slice_elems_whole; [apply lookup_insert_eq|apply length_replicate]. }
  unfold mbind, copy, mbind.
  rewrite (read_slice_eval _ _ _ Hsrc), (read_slice_eval _ _ _ Hdst).
  cbn [ret base off len h1 arrays cells]. rewrite lookup_insert_eq.
  fold n. rewrite Nat.min_id, insert_insert_eq.
  rewrite (take_ge rows) by lia.
  pose proof (write_at_app rows [] (replicate n zeroSeries)) as Hw.
  cbn [app length] in Hw. rewrite Hw by (rewrite length_replicate; lia).
  reflexivity.
Qed.

Lemma append_eval sl v h l :
  slice_elems h sl = Some l ->
  exists sl' h',
    append sl v h = Done sl' h' /\ slice_elems h' sl' = Some (l ++ [v])%list.
Proof.
  intros Hl. pose proof (slice_elems_length _ _ _ Hl) as Hlen.
  unfold append. destruct (bool_decide (len sl < cap sl)%nat) eqn:Hcap.
  - apply bool_decide_eq_true in Hcap.
    unfold slice_elems in Hl.
    destruct (arrays h !! base sl) as [a|] eqn:Ha; [|discriminate].
    destruct (bool_decide (off sl + cap sl <= length a)%nat) eqn:E1; [|discriminate].
    apply bool_decide_eq_true in E1. cbn [andb] in Hl.
    destruct (bool_decide (len sl <= cap sl)%nat); [|discriminate].
    injection Hl as Hl.
    unfold mbind, set_at. cbn [len base off].
    rewrite bool_decide_eq_true_2 by lia. rewrite Ha.
    eexists _, _. split; [reflexivity|].
    unfold slice_elems. cbn [arrays base off len cap].
    rewrite lookup_insert_eq, length_insert.
    rewrite !bool_decide_eq_true_2 by lia. cbn [andb]. f_equal.
    rewrite drop_insert_ge by lia.
    replace (off sl + len sl - off sl)%nat with (len sl) by lia.
    rewrite (take_S_r _ _ v)
      by (apply list_lookup_insert_eq; rewrite length_drop; lia).
    rewrite take_insert_ge by lia. rewrite Hl. reflexivity.
  - apply bool_decide_eq_false in Hcap.
    unfold mbind. rewrite (read_slice_eval _ _ _ Hl). unfold alloc_array, mret.
    eexists _, _. split; [reflexivity|].
    unfold slice_elems. cbn [arrays base off len cap].
    rewrite lookup_insert_eq.
    rewrite !bool_decide_eq_true_2
      by (rewrite ?length_app; cbn [length]; rewrite ?length_replicate; lia).
    cbn [andb]. rewrite drop_0. f_equal.
    rewrite (cons_middle v l), app_assoc.
    apply take_app_length'. rewrite length_app. cbn [length]. lia.
Qed.

Lemma run_appends vs : forall sl h l,
  slice_elems h sl = Some l ->
  exists sl' h',
    run_ops (map Append vs) sl h = Done sl' h'
    /\ slice_elems h' sl' = Some (l ++ vs)%list.
Proof.
  induction vs as [|v vs IH]; intros sl h l Hl; cbn [map run_ops].
  - eexists _, _. split; [reflexivity|]. rewrite app_nil_r. exact Hl.
  - destruct (append_eval sl v h l Hl) as (sl1 & h1 & Happ & Hl1).
    destruct (IH sl1 h1 _ Hl1) as (sl2 & h2 & Hrun & Hl2).
    exists sl2, h2. unfold mbind. cbn [apply_op]. rewrite Happ.
    split; [exact Hrun|]. rewrite Hl2, <- app_assoc. reflexivity.
Qed.

(** C7: [CopyOfSeriesCollection] returns a slice over a new backing array
    that holds the rows of the index in the same order; whatever the caller
    then does to that slice (assignments, swaps, appends), the collection
    of the index reads as before, and appending to the copy always works. *)
Theorem CopyOfSeriesCollection_independent h csi rows :
  slice_elems h (seriesCollection csi) = Some rows ->
  exists ret h1,
    CopyOfSeriesCollection csi h = Done ret h1
    /\ (base ret ∉ dom (arrays h))
    /\ slice_elems h1 ret = Some rows
    /\ slice_elems h1 (seriesCollection csi) = Some rows
    /\ (forall ops,
          safely (run_ops ops ret h1)
                 (fun _ h2 => slice_elems h2 (seriesCollection csi) = Some rows))
    /\ (forall vs, exists ret' h2,
          run_ops (map Append vs) ret h1 = Done ret' h2
          /\ slice_elems h2 ret' = Some (rows ++ vs)%list
          /\ slice_elems h2 (seriesCollection csi) = Some rows).
Proof.
  intros Hrows.
  pose proof (CopyOfSeriesCollection_eval h csi rows Hrows) as Hcopy.
  cbv zeta in Hcopy.
  pose proof (slice_elems_length _ _ _ Hrows) as Hlen.
  pose proof (slice_elems_base _ _ _ Hrows) as Hbase.
  set (l := fresh (dom (arrays h))) in *.
  set (ret := mkSlice l 0 (len (seriesCollection csi)) (len (seriesCollection csi))) in *.
  set (h1 := mkHeap (cells h) (<[l := rows]> (arrays h))) in *.
  assert (l ∉ dom (arrays h)) as Hfresh by apply is_fresh.
  assert (base ret <> base (seriesCollection csi)) as Hne
    by (cbn [ret base]; intros Heq; rewrite Heq in Hfresh; contradiction).
  assert (base (seriesCollection csi) ∈ dom (arrays h1)) as Hbase1
    by (cbn [h1 arrays]; rewrite dom_insert_L; set_solver).
  assert (slice_elems h1 ret = Some rows) as Hret
    by (apply slice_elems_whole; [apply lookup_insert_eq|exact Hlen]).
  assert (slice_elems h1 (seriesCollection csi) = Some rows) as Hsrc.
  { rewrite <- Hrows. apply slice_elems_kept. cbn [h1 arrays].
    apply lookup_insert_ne. exact Hne. }
  assert (forall ops,
             safely (run_ops ops ret h1)
                    (fun _ h2 => slice_elems h2 (seriesCollection csi) = Some rows))
    as Hframe.
  { intros ops. eapply safely_weaken; [|apply (run_ops_kept _ ops ret h1 Hbase1 Hne)].
    intros sl2 h2 Hkept. cbn beta in *. rewrite <- Hsrc.
    apply slice_elems_kept. exact Hkept. }
  exists ret, h1. repeat split; try assumption.
  intros vs. destruct (run_appends vs ret h1 rows Hret) as (ret' & h2 & Hrun & Hl2).
  exists ret', h2. repeat split; try assumption.
  specialize (Hframe (map Append vs)). rewrite Hrun in Hframe. exact Hframe.
Qed.

(** ** Examples *)

Example Split_sections :
  Split "cpu,hostname=host_0,region=eu-central-1#usage_idle#2016-01-01" "#"
  = ["cpu,hostname=host_0,region=eu-central-1"; "usage_idle"; "2016-01-01"].
Proof. reflexivity. Qed.

Example Split_empty : Split "" "#" = [""].
Proof. reflexivity. Qed.

Example Split_adjacent : Split "a##b#" "#" = ["a"; ""; "b"; ""].
Proof. reflexivity. Qed.

Example Parse_new_year_2016 :
  time_Parse_date "2016-01-01" = Some (1451606400 * Second).
Proof. reflexivity. Qed.

Example Parse_leap_day :
  time_Parse_date "2016-02-29" = Some (Date 2016 2 29)
  /\ time_Parse_date "2015-02-29" = None.
Proof. split; reflexivity. Qed.

Example Parse_rejects :
  time_Parse_date "2016-1-01" = None
  /\ time_Parse_date "2016-01-01 " = None
  /\ time_Parse_date "2016-13-01" = None
  /\ time_Parse_date "2016/01/01" = None.
Proof. repeat split; reflexivity. Qed.

Example NewSeries_duplicate_tag :
  NewSeries day_bucket "T" "cpu,hostname=a,hostname=a#f#2016-01-01" emptyHeap
  = Fatal "logic error: duplicate tag".
Proof. vm_compute. reflexivity. Qed.

Example NewSeries_two_sections :
  NewSeries day_bucket "T" "cpu,hostname=a#f" emptyHeap
  = Fatal "logic error: invalid series id".
Proof. vm_compute. reflexivity. Qed.

Example NewSeries_four_sections :
  NewSeries day_bucket "T" "cpu,hostname=a#f#2016-01-01#x" emptyHeap
  = Fatal "logic error: invalid series id".
Proof. vm_compute. reflexivity. Qed.

Example NewSeries_bad_date :
  NewSeries day_bucket "T" "cpu,hostname=a#f#yesterday" emptyHeap
  = Fatal "bad time bucket parse in pre-existing database series".
Proof. vm_compute. reflexivity. Qed.

(** The measurement is not a tag: it may repeat a tag token. *)
Example NewSeries_measurement_like_tag :
  exists row h, NewSeries day_bucket "T" "a,a#f#2016-01-01" emptyHeap = Done row h
                /\ Measurement row = "a" /\ Tags row = {["a"]}.
Proof. eexists _, _. split; [vm_compute; reflexivity|]. split; reflexivity. Qed.

(** The filter of the spec: one of two host names, and the region. *)
Lemma MatchesTagSets_hosts_and_region h s row :
  cells h !! s = Some row ->
  exists b,
    MatchesTagSets s [["hostname=host_0"; "hostname=host_1"];
                      ["region=eu-central-1"]] h = Done b h
    /\ (b = true <->
        "region=eu-central-1" ∈ Tags row
        /\ ("hostname=host_0" ∈ Tags row \/ "hostname=host_1" ∈ Tags row)).
Proof.
  intros Hs.
  destruct (MatchesTagSets_eval h s row
              [["hostname=host_0"; "hostname=host_1"]; ["region=eu-central-1"]] Hs)
    as (b & Hrun & Hb).
  exists b. split; [exact Hrun|]. rewrite Hb. unfold satisfies.
  rewrite !Forall_cons, !Exists_cons, Exists_nil, Forall_nil. tauto.
Qed.

Example touching_days_do_not_overlap :
  Overlap (mkTimeInterval (Date 2016 1 1) (Date 2016 1 2))
          (mkTimeInterval (Date 2016 1 2) (Date 2016 1 3)) = false.
Proof. reflexivity. Qed.

(** ** The theorems at concrete inputs *)

Lemma MatchesTimeInterval_iff_overlap_witness :
  exists b,
    MatchesTimeInterval 1%positive
      (mkTimeInterval (Date 2016 1 2) (Date 2016 1 3)) example_heap
    = Done b example_heap
    /\ (b = true <->
        exists t, within t (SeriesTimeInterval example_row1)
                  /\ within t (mkTimeInterval (Date 2016 1 2) (Date 2016 1 3)))
    /\ (End (SeriesTimeInterval example_row1)
          = Start (mkTimeInterval (Date 2016 1 2) (Date 2016 1 3))
        \/ End (mkTimeInterval (Date 2016 1 2) (Date 2016 1 3))
             = Start (SeriesTimeInterval example_row1) -> b = false).
Proof.
  apply (MatchesTimeInterval_iff_overlap example_heap 1%positive example_row1).
  vm_compute. reflexivity.
Defined.

Lemma MatchesTagSets_iff_satisfies_witness :
  (exists b,
      MatchesTagSets 1%positive
        [["hostname=host_0"; "hostname=host_1"]; ["region=eu-central-1"]]
        example_heap = Done b example_heap
      /\ (b = true <->
          forall tagset,
            tagset ∈ [["hostname=host_0"; "hostname=host_1"]; ["region=eu-central-1"]] ->
            exists tag, tag ∈ tagset /\ tag ∈ Tags example_row1))
  /\ MatchesTagSets 1%positive [] example_heap = Done true example_heap.
Proof.
  apply (MatchesTagSets_iff_satisfies example_heap 1%positive example_row1).
  vm_compute. reflexivity.
Defined.

Lemma MatchesTagSets_empty_group_witness :
  MatchesTagSets 1%positive [["hostname=host_0"]; []] example_heap
  = Done false example_heap.
Proof.
  apply (MatchesTagSets_empty_group example_heap 1%positive example_row1).
  - vm_compute. reflexivity.
  - apply list_elem_of_further, list_elem_of_here.
Defined.

Lemma predicates_read_only_witness :
  (exists b, MatchesTimeInterval 1%positive
               (mkTimeInterval (Date 2016 1 1) (Date 2016 1 2)) example_heap
             = Done b example_heap)
  /\ (exists b, MatchesMeasurementName 1%positive "cpu" example_heap
                = Done b example_heap)
  /\ (exists b, MatchesFieldName 1%positive "usage_idle" example_heap
                = Done b example_heap)
  /\ (exists b, MatchesTagSets 1%positive [["hostname=host_0"]] example_heap
                = Done b example_heap).
Proof.
  apply (predicates_read_only example_heap 1%positive example_row1).
  vm_compute. reflexivity.
Defined.

Lemma NewClientSideIndex_fatal_iff_empty_witness :
  (([example_row1; example_row2] = [] ->
    NewClientSideIndex example_slice example_heap
    = Fatal "logic error: no data to build ClientSideIndex")
   /\ ([example_row1; example_row2] <> [] ->
       exists csi h', NewClientSideIndex example_slice example_heap = Done csi h'))
  /\ ((@nil Series = [] ->
       NewClientSideIndex (mkSlice 1%positive 0 0 2) example_heap
       = Fatal "logic error: no data to build ClientSideIndex")
      /\ (@nil Series <> [] ->
          exists csi h',
            NewClientSideIndex (mkSlice 1%positive 0 0 2) example_heap = Done csi h')).
Proof.
  split.
  - apply (NewClientSideIndex_fatal_iff_empty example_heap example_slice).
    vm_compute. reflexivity.
  - apply (NewClientSideIndex_fatal_iff_empty example_heap (mkSlice 1%positive 0 0 2)).
    vm_compute. reflexivity.
Defined.

Lemma NewClientSideIndex_rows_and_ids_witness :
  exists csi h',
    NewClientSideIndex example_slice example_heap = Done csi h'
    /\ slice_elems h' (seriesCollection csi) = Some [example_row1; example_row2]
    /\ length (seriesIds csi) = length [example_row1; example_row2]
    /\ forall i, seriesIds csi !! i = Id <$> [example_row1; example_row2] !! i.
Proof.
  apply (NewClientSideIndex_rows_and_ids example_heap example_slice).
  - vm_compute. reflexivity.
  - discriminate.
Defined.

Lemma CopyOfSeriesCollection_independent_witness :
  exists ret h1,
    CopyOfSeriesCollection (mkClientSideIndex ∅ ∅ example_slice []) example_heap
    = Done ret h1
    /\ (base ret ∉ dom (arrays example_heap))
    /\ slice_elems h1 ret = Some [example_row1; example_row2]
    /\ slice_elems h1 example_slice = Some [example_row1; example_row2]
    /\ (forall ops,
          safely (run_ops ops ret h1)
                 (fun _ h2 => slice_elems h2 example_slice
                              = Some [example_row1; example_row2]))
    /\ (forall vs, exists ret' h2,
          run_ops (map Append vs) ret h1 = Done ret' h2
          /\ slice_elems h2 ret' = Some ([example_row1; example_row2] ++ vs)%list
          /\ slice_elems h2 example_slice = Some [example_row1; example_row2]).
Proof.
  apply (CopyOfSeriesCollection_independent example_heap
           (mkClientSideIndex ∅ ∅ example_slice [])).
  vm_compute. reflexivity.
Defined.

(** * More about the parser *)

(** ** Splitting, backwards *)

Lemma Split_cons_inv sep s : forall a rest,
  Split s sep = a :: rest ->
  has_byte sep a = false
  /\ ((rest = [] /\ s = a)
      \/ exists s', rest = Split s' sep /\ s = a +:+ String sep s').
Proof.
  induction s as [|c s IH]; intros a rest; cbn [Split].
  - intros [= <- <-]. split; [reflexivity|]. left. split; reflexivity.
  - destruct (Ascii.eqb c sep) eqn:Hc.
    + apply Ascii.eqb_eq in Hc. subst c. intros [= <- <-].
      split; [reflexivity|]. right. exists s. split; reflexivity.
    + destruct (Split s sep) as [|piece pieces] eqn:Hs;
        [exfalso; exact (Split_nonempty _ _ Hs)|].
      intros [= <- <-]. destruct (IH piece pieces eq_refl) as [Hpiece Hrest].
      split; [cbn [has_byte]; rewrite Hc; exact Hpiece|].
      destruct Hrest as [[-> ->]|(s' & -> & ->)].
      * left. split; reflexivity.
      * right. exists s'. split; reflexivity.
Qed.

Lemma Split_three_inv id s0 s1 s2 :
  Split id "#" = [s0; s1; s2] ->
  id = s0 +:+ String "#" (s1 +:+ String "#" s2)
  /\ has_byte "#" s0 = false /\ has_byte "#" s1 = false
  /\ has_byte "#" s2 = false.
Proof.
  intros H0. apply Split_cons_inv in H0 as [Hs0 [[[=] _]|(r1 & H1 & ->)]].
  symmetry in H1. apply Split_cons_inv in H1 as [Hs1 [[[=] _]|(r2 & H2 & ->)]].
  symmetry in H2. apply Split_cons_inv in H2 as [Hs2 [[_ ->]|(r3 & H3 & _)]].
  - repeat split; assumption.
  - exfalso. symmetry in H3. exact (Split_nonempty _ _ H3).
Qed.

Lemma Split_tokens_inv toks : forall s m,
  Split s "," = m :: toks ->
  s = m +:+ join_tags toks
  /\ has_byte "," m = false
  /\ Forall (fun t => has_byte "," t = false) toks.
Proof.
  induction toks as [|t toks IH]; intros s m Hs;
    apply Split_cons_inv in Hs as [Hm Hrest].
  - destruct Hrest as [[_ ->]|(s' & Hs' & _)].
    + cbn [join_tags]. rewrite append_empty_r. repeat split; [exact Hm|constructor].
    + exfalso. symmetry in Hs'. exact (Split_nonempty _ _ Hs').
  - destruct Hrest as [[[=] _]|(s' & Hs' & ->)].
    symmetry in Hs'. destruct (IH _ _ Hs') as (-> & Ht & Htoks).
    repeat split; [exact Hm|]. constructor; assumption.
Qed.

Lemma has_byte_join_tags_inv c toks :
  has_byte c (join_tags toks) = false ->
  Forall (fun t => has_byte c t = false) toks.
Proof.
  induction toks as [|t toks IH]; cbn [join_tags has_byte]; [constructor|].
  destruct (Ascii.eqb "," c); [discriminate|].
  rewrite has_byte_app. intros H. apply orb_false_elim in H as [Ht Htoks].
  constructor; [exact Ht|apply IH, Htoks].
Qed.

(** ** Dates, backwards *)

Lemma digit_inv c k : digit c = Some k -> 0 <= k <= 9 /\ c = digit_char k.
Proof.
  unfold digit, digit_char.
  destruct (48 <=? Z.of_N (N_of_ascii c)) eqn:Hlo; [|discriminate].
  destruct (Z.of_N (N_of_ascii c) <=? 57) eqn:Hhi; [|discriminate].
  apply Z.leb_le in Hlo, Hhi. intros [= <-]. split; [lia|].
  replace (48 + (Z.of_N (N_of_ascii c) - 48)) with (Z.of_N (N_of_ascii c)) by lia.
  rewrite N2Z.id, ascii_N_embedding. reflexivity.
Qed.

Lemma time_Parse_date_inv value t :
  time_Parse_date value = Some t ->
  exists year month day,
    valid_date year month day
    /\ value = fmt_date year month day
    /\ t = Date year month day.
Proof.
  unfold time_Parse_date.
  destruct value as [|y1 [|y2 [|y3 [|y4 [|h1 [|m1 [|m2 [|h2 [|d1 [|d2 [|? ?]]]]]]]]]]];
    try discriminate.
  destruct (digit y1) as [a|] eqn:Ha; [|discriminate].
  destruct (digit y2) as [b|] eqn:Hb; [|discriminate].
  destruct (digit y3) as [c|] eqn:Hc; [|discriminate].
  destruct (digit y4) as [d|] eqn:Hd; [|discriminate].
  destruct (digit m1) as [e|] eqn:He; [|discriminate].
  destruct (digit m2) as [f|] eqn:Hf; [|discriminate].
  destruct (digit d1) as [g|] eqn:Hg; [|discriminate].
  destruct (digit d2) as [i|] eqn:Hi; [|discriminate].
  cbv zeta.
  destruct (Ascii.eqb h1 "-") eqn:Hh1; [|discriminate].
  destruct (Ascii.eqb h2 "-") eqn:Hh2; [|discriminate].
  cbn [andb].
  destruct (1 <=? 10 * e + f) eqn:Hm1; [|discriminate].
  destruct (10 * e + f <=? 12) eqn:Hm2; [|discriminate].
  destruct (1 <=? 10 * g + i) eqn:Hd1; [|discriminate].
  cbn [andb].
  destruct (10 * g + i <=? daysIn (10 * e + f) (1000 * a + 100 * b + 10 * c + d))
    eqn:Hd2; [|discriminate].
  intros [= <-].
  apply Ascii.eqb_eq in Hh1, Hh2. subst h1 h2.
  apply Z.leb_le in Hm1, Hm2, Hd1, Hd2.
  apply digit_inv in Ha as [Ha ->], Hb as [Hb ->], Hc as [Hc ->], Hd as [Hd ->].
  apply digit_inv in He as [He ->], Hf as [Hf ->], Hg as [Hg ->], Hi as [Hi ->].
  exists (1000 * a + 100 * b + 10 * c + d), (10 * e + f), (10 * g + i).
  split; [|split; [|reflexivity]].
  - unfold valid_date. lia.
  - unfold fmt_date.
    replace ((1000 * a + 100 * b + 10 * c + d) / 1000 mod 10) with a
      by (Z.div_mod_to_equations; lia).
    replace ((1000 * a + 100 * b + 10 * c + d) / 100 mod 10) with b
      by (Z.div_mod_to_equations; lia).
    replace ((1000 * a + 100 * b + 10 * c + d) / 10 mod 10) with c
      by (Z.div_mod_to_equations; lia).
    replace ((1000 * a + 100 * b + 10 * c + d) mod 10) with d
      by (Z.div_mod_to_equations; lia).
    replace ((10 * e + f) / 10 mod 10) with e by (Z.div_mod_to_equations; lia).
    replace ((10 * e + f) mod 10) with f by (Z.div_mod_to_equations; lia).
    replace ((10 * g + i) / 10 mod 10) with g by (Z.div_mod_to_equations; lia).
    replace ((10 * g + i) mod 10) with i by (Z.div_mod_to_equations; lia).
    reflexivity.
Qed.

(** ** What the parser accepts, and how it fails *)

(** X1: an identifier on which [NewSeries] returns has the shape
    [m,t1,...,tn#f#YYYY-MM-DD]: tokens free of separators, tag tokens
    pairwise distinct, the date a day of the calendar; and the row is the
    one read off that shape. *)
Theorem NewSeries_returns_inv BucketDuration table id h row h' :
  NewSeries BucketDuration table id h = Done row h' ->
  exists m tags f year month day,
    id = identifier m tags f (fmt_date year month day)
    /\ token m /\ Forall token tags /\ NoDup tags
    /\ has_byte "#" f = false
    /\ valid_date year month day
    /\ row = mkSeries table id m (list_to_set tags) f
               (mkTimeInterval (Date year month day)
                               (Date year month day + BucketDuration)).
Proof.
  pose proof (NewSeries_eval BucketDuration table id h) as Hrun. cbv zeta in Hrun.
  rewrite Hrun. clear Hrun.
  destruct (Split id "#") as [|sec0 [|sec1 [|sec2 [|sec3 rest]]]] eqn:Hid;
    try discriminate.
  destruct (Split sec0 ",") as [|m toks] eqn:Hsec0; [discriminate|].
  destruct (decide (NoDup toks)) as [Hnd|]; [|discriminate].
  destruct (time_Parse_date sec2) as [start|] eqn:Hdate; [|discriminate].
  cbv zeta. intros [= <- _].
  apply Split_three_inv in Hid as (-> & H0 & H1 & H2).
  apply Split_tokens_inv in Hsec0 as (-> & Hm & Htoks).
  rewrite has_byte_app in H0. apply orb_false_elim in H0 as [Hm' Htoks'].
  apply has_byte_join_tags_inv in Htoks'.
  apply time_Parse_date_inv in Hdate as (year & month & day & Hvalid & -> & ->).
  exists m, toks, sec1, year, month, day.
  split; [reflexivity|]. split; [split; assumption|]. split.
  { apply Forall_forall. intros t Ht. split.
    - exact (proj1 (Forall_forall _ _) Htoks' t Ht).
    - exact (proj1 (Forall_forall _ _) Htoks t Ht). }
  split; [exact Hnd|]. split; [exact H1|]. split; [exact Hvalid|]. reflexivity.
Qed.

Lemma NewSeries_returns_inv_witness :
  exists m tags f year month day,
    "mem,hostname=host_1#available#2016-01-02"
      = identifier m tags f (fmt_date year month day)
    /\ token m /\ Forall token tags /\ NoDup tags
    /\ has_byte "#" f = false
    /\ valid_date year month day
    /\ example_row2
       = mkSeries "T" "mem,hostname=host_1#available#2016-01-02" m
           (list_to_set tags) f
           (mkTimeInterval (Date year month day) (Date year month day + day_bucket)).
Proof.
  eapply (NewSeries_returns_inv day_bucket "T"
            "mem,hostname=host_1#available#2016-01-02" emptyHeap example_row2).
  vm_compute. reflexivity.
Defined.

(** X2: on a malformed identifier [NewSeries] ends with the message of the
    first check that fails: the number of sections, then the repeated tag,
    then the date. *)
Theorem NewSeries_fatal_message BucketDuration table id h :
  malformed id ->
  NewSeries BucketDuration table id h = Fatal (fatal_message id).
Proof.
  pose proof (NewSeries_eval BucketDuration table id h) as Hrun. cbv zeta in Hrun.
  rewrite Hrun. clear Hrun.
  unfold malformed, fatal_message, tag_section, date_section.
  destruct (Split id "#") as [|sec0 [|sec1 [|sec2 [|sec3 rest]]]];
    cbn [length nth Nat.eqb negb]; try reflexivity.
  destruct (Split sec0 ",") as [|m toks] eqn:Hsec0;
    [exfalso; exact (Split_nonempty _ _ Hsec0)|].
  cbn [drop]. rewrite drop_0.
  destruct (decide (NoDup toks)) as [Hnd|Hnd]; [|reflexivity].
  destruct (time_Parse_date sec2) as [start|]; [|reflexivity].
  intros [Hlen|[Hdup|Hdate]]; [congruence|contradiction|discriminate].
Qed.

Lemma NewSeries_fatal_message_witness :
  NewSeries day_bucket "T" "cpu,hostname=a,hostname=a#f#yesterday" emptyHeap
  = Fatal (fatal_message "cpu,hostname=a,hostname=a#f#yesterday")
  /\ fatal_message "cpu,hostname=a,hostname=a#f#yesterday"
     = "logic error: duplicate tag".
Proof.
  split.
  - apply (NewSeries_fatal_message day_bucket "T"
             "cpu,hostname=a,hostname=a#f#yesterday" emptyHeap).
    right. right. vm_compute. reflexivity.
  - vm_compute. reflexivity.
Defined.

(** X3: the row [NewSeries] returns depends on the table and the identifier
    only, not on the heap it runs in; and the call leaves every backing
    array and every cell that was there as it was. *)
Theorem NewSeries_heap BucketDuration table id h row h' :
  NewSeries BucketDuration table id h = Done row h' ->
  parsed_row BucketDuration table id = Some row
  /\ (forall h2, exists h2', NewSeries BucketDuration table id h2 = Done row h2')
  /\ arrays h' = arrays h
  /\ (forall p, p ∈ dom (cells h) -> cells h' !! p = cells h !! p).
Proof.
  intros Hrun.
  assert (forall h2, exists h2', NewSeries BucketDuration table id h2 = Done row h2')
    as Hany.
  { intros h2.
    pose proof (NewSeries_eval BucketDuration table id h) as E1.
    pose proof (NewSeries_eval BucketDuration table id h2) as E2.
    cbv zeta in E1, E2. rewrite E1 in Hrun. rewrite E2. clear E1 E2.
    destruct (Split id "#") as [|sec0 [|sec1 [|sec2 [|sec3 rest]]]];
      try discriminate.
    destruct (Split sec0 ",") as [|m toks]; [discriminate|].
    destruct (decide (NoDup toks)); [|discriminate].
    destruct (time_Parse_date sec2) as [start|]; [|discriminate].
    injection Hrun as <- _. eexists. reflexivity. }
  split; [|split; [exact Hany|]].
  - unfold parsed_row. destruct (Hany emptyHeap) as [h2' ->]. reflexivity.
  - pose proof (NewSeries_eval BucketDuration table id h) as E1.
    cbv zeta in E1. rewrite E1 in Hrun. clear E1.
    destruct (Split id "#") as [|sec0 [|sec1 [|sec2 [|sec3 rest]]]];
      try discriminate.
    destruct (Split sec0 ",") as [|m toks]; [discriminate|].
    destruct (decide (NoDup toks)); [|discriminate].
    destruct (time_Parse_date sec2) as [start|]; [|discriminate].
    injection Hrun as <- <-. cbn [arrays cells]. split; [reflexivity|].
    intros p Hp. apply lookup_insert_ne. intros <-.
    exact (is_fresh _ Hp).
Qed.

Lemma NewSeries_heap_witness :
  parsed_row day_bucket "T" "mem,hostname=host_1#available#2016-01-02"
  = Some example_row2
  /\ (forall h2, exists h2',
        NewSeries day_bucket "T" "mem,hostname=host_1#available#2016-01-02" h2
        = Done example_row2 h2')
  /\ arrays (assign 2%positive example_row2 example_heap) = arrays example_heap
  /\ (forall p, p ∈ dom (cells example_heap) ->
                cells (assign 2%positive example_row2 example_heap) !! p
                = cells example_heap !! p).
Proof.
  apply (NewSeries_heap day_bucket "T" "mem,hostname=host_1#available#2016-01-02"
           example_heap example_row2).
  vm_compute. reflexivity.
Defined.

(** * More about the index *)

Lemma dom_add_ref `{Countable K} (k : K) p (m : gmap K (gset loc)) :
  dom (add_ref k p m) = {[k]} ∪ dom m.
Proof.
  unfold add_ref. destruct (m !! k) as [inner|] eqn:Hk.
  - rewrite Hk.
    assert (k ∈ dom m) as Hin by (apply elem_of_dom; eauto).
    destruct (decide (p ∈ inner)); [set_solver|].
    rewrite dom_insert_L. set_solver.
  - rewrite lookup_insert_eq. rewrite decide_False by set_solver.
    rewrite !dom_insert_L. set_solver.
Qed.

Lemma dom_add_refs `{Countable K} p (keys : list K) : forall (m : gmap K (gset loc)),
  dom (foldl (fun m k => add_ref k p m) m keys) = list_to_set keys ∪ dom m.
Proof.
  induction keys as [|k keys IH]; intros m; cbn [foldl list_to_set].
  - set_solver.
  - rewrite IH, dom_add_ref. set_solver.
Qed.

Lemma dom_time_fold s rows :
  dom (foldl (fun bm x => add_ref (SeriesTimeInterval x) s bm) ∅ rows)
  = list_to_set (map SeriesTimeInterval rows).
Proof.
  rewrite <- (foldl_fmap (fun m k => add_ref k s m) ∅ rows SeriesTimeInterval).
  rewrite dom_add_refs, dom_empty_L. set_solver.
Qed.

Lemma dom_tag_fold s rows : forall tm tag,
  tag ∈ dom (foldl (fun tm x => tags_of_loop s (Tags x) tm) tm rows)
  <-> (exists r, r ∈ rows /\ tag ∈ Tags r) \/ tag ∈ dom tm.
Proof.
  induction rows as [|x rest IH]; intros tm tag; cbn [foldl].
  - split; [intros Hin; right; exact Hin|].
    intros [(r & Hr & _)|Hin]; [inversion Hr|exact Hin].
  - rewrite IH. unfold tags_of_loop. rewrite dom_add_refs.
    rewrite elem_of_union, elem_of_list_to_set, elem_of_elements. split.
    + intros [(r & Hr & Ht)|[Ht|Hin]].
      * left. exists r. split; [apply list_elem_of_further; exact Hr|exact Ht].
      * left. exists x. split; [apply list_elem_of_here|exact Ht].
      * right. exact Hin.
    + intros [(r & Hr & Ht)|Hin].
      * apply elem_of_cons in Hr as [->|Hr]; [right; left; exact Ht|].
        left. exists r. split; assumption.
      * right. right. exact Hin.
Qed.

Lemma NewClientSideIndex_done_len h sc csi h' :
  NewClientSideIndex sc h = Done csi h' -> len sc <> 0%nat.
Proof.
  unfold NewClientSideIndex. destruct (len sc =? 0)%nat eqn:E; [discriminate|].
  intros _. apply Nat.eqb_neq. exact E.
Qed.

(** X4: the keys of the two maps of a built index are the time intervals
    that occur among the rows and the tags that occur among the rows,
    nothing more and nothing less. *)
Theorem NewClientSideIndex_keys h sc rows csi h' :
  slice_elems h sc = Some rows ->
  NewClientSideIndex sc h = Done csi h' ->
  (forall k, k ∈ dom (timeIntervalMapping csi)
             <-> exists r, r ∈ rows /\ SeriesTimeInterval r = k)
  /\ (forall tag, tag ∈ dom (tagMapping csi)
                  <-> exists r, r ∈ rows /\ tag ∈ Tags r).
Proof.
  intros Hrows Hrun.
  pose proof (NewClientSideIndex_done_len _ _ _ _ Hrun) as Hlen.
  rewrite (NewClientSideIndex_eval h sc rows Hrows Hlen) in Hrun.
  injection Hrun as <- _. cbn [timeIntervalMapping tagMapping]. split.
  - intros k. rewrite dom_time_fold, elem_of_list_to_set.
    change (map SeriesTimeInterval rows) with (SeriesTimeInterval <$> rows).
    rewrite list_elem_of_fmap. split.
    + intros (r & -> & Hr). exists r. split; [exact Hr|reflexivity].
    + intros (r & Hr & <-). exists r. split; [reflexivity|exact Hr].
  - intros tag. rewrite dom_tag_fold. split.
    + intros [Hex|Hin]; [exact Hex|]. rewrite dom_empty_L in Hin. set_solver.
    + intros Hex. left. exact Hex.
Qed.

Lemma NewClientSideIndex_keys_witness :
  exists csi h',
    NewClientSideIndex example_slice example_heap = Done csi h'
    /\ (forall k, k ∈ dom (timeIntervalMapping csi)
                  <-> exists r, r ∈ [example_row1; example_row2]
                                /\ SeriesTimeInterval r = k)
    /\ (forall tag, tag ∈ dom (tagMapping csi)
                    <-> exists r, r ∈ [example_row1; example_row2]
                                  /\ tag ∈ Tags r).
Proof.
  eexists _, _. split; [vm_compute; reflexivity|].
  eapply (NewClientSideIndex_keys example_heap example_slice
            [example_row1; example_row2]).
  - vm_compute. reflexivity.
  - vm_compute. reflexivity.
Defined.

Lemma bucket_lookup `{Countable K} (m : gmap K (gset loc)) (k : K) :
  k ∈ dom m -> m !! k = Some (bucket m k).
Proof.
  intros Hk. apply elem_of_dom in Hk as [inner Hk]. unfold bucket.
  rewrite Hk. reflexivity.
Qed.

(** X5: in a built index every bucket of the time map is the singleton of
    one and the same pointer, every bucket of the tag map the singleton of
    one other pointer; both pointers are new, and both point to a row equal
    to the last row of the collection. *)
Theorem NewClientSideIndex_buckets_share_pointer h sc rows csi h' :
  slice_elems h sc = Some rows ->
  NewClientSideIndex sc h = Done csi h' ->
  exists p1 p2 lastrow,
    last rows = Some lastrow
    /\ (p1 ∉ dom (cells h)) /\ (p2 ∉ dom (cells h)) /\ p1 <> p2
    /\ cells h' !! p1 = Some lastrow /\ cells h' !! p2 = Some lastrow
    /\ (forall k, k ∈ dom (timeIntervalMapping csi) ->
                  timeIntervalMapping csi !! k = Some {[p1]})
    /\ (forall tag, tag ∈ dom (tagMapping csi) ->
                    tagMapping csi !! tag = Some {[p2]}).
Proof.
  intros Hrows Hrun.
  pose proof (NewClientSideIndex_done_len _ _ _ _ Hrun) as Hlen.
  destruct (last rows) as [lastrow|] eqn:Hlast.
  2:{ apply last_None in Hlast. subst rows.
      apply slice_elems_length in Hrows. cbn [length] in Hrows. congruence. }
  rewrite (NewClientSideIndex_eval h sc rows Hrows Hlen) in Hrun.
  rewrite Hlast in Hrun. cbn [default] in Hrun.
  injection Hrun as <- <-. cbn [timeIntervalMapping tagMapping] in *.
  set (s1 := first_var h) in *. set (s2 := second_var h lastrow) in *.
  assert (s2 <> s1) as Hne by apply second_var_ne.
  exists s1, s2, lastrow. split; [reflexivity|].
  split; [exact (is_fresh (dom (cells h)))|]. split.
  { intros Hin. apply (is_fresh (dom (cells (assign s1 lastrow h)))).
    change (s2 ∈ dom (cells (assign s1 lastrow h))). cbn [assign cells].
    rewrite dom_insert_L. apply elem_of_union_r. exact Hin. }
  split; [congruence|]. split.
  { cbn [assign cells]. rewrite lookup_insert_ne by exact Hne.
    apply lookup_insert_eq. }
  split; [cbn [assign cells]; apply lookup_insert_eq|]. split.
  - intros k Hk. rewrite (bucket_lookup _ _ Hk), time_buckets.
    rewrite dom_time_fold, elem_of_list_to_set in Hk.
    rewrite decide_True by exact Hk. reflexivity.
  - intros tag Htag. rewrite (bucket_lookup _ _ Htag), tag_buckets.
    apply dom_tag_fold in Htag as [(r & Hr & Ht)|Hin];
      [|rewrite dom_empty_L in Hin; set_solver].
    rewrite decide_True; [reflexivity|].
    apply Exists_exists. exists r. split; assumption.
Qed.

Lemma NewClientSideIndex_buckets_share_pointer_witness :
  exists csi h',
    NewClientSideIndex example_slice example_heap = Done csi h'
    /\ exists p1 p2 lastrow,
         last [example_row1; example_row2] = Some lastrow
         /\ (p1 ∉ dom (cells example_heap)) /\ (p2 ∉ dom (cells example_heap))
         /\ p1 <> p2
         /\ cells h' !! p1 = Some lastrow /\ cells h' !! p2 = Some lastrow
         /\ (forall k, k ∈ dom (timeIntervalMapping csi) ->
                       timeIntervalMapping csi !! k = Some {[p1]})
         /\ (forall tag, tag ∈ dom (tagMapping csi) ->
                         tagMapping csi !! tag = Some {[p2]}).
Proof.
  eexists _, _. split; [vm_compute; reflexivity|].
  eapply (NewClientSideIndex_buckets_share_pointer example_heap example_slice
            [example_row1; example_row2]).
  - vm_compute. reflexivity.
  - vm_compute. reflexivity.
Defined.

(** X6: building an index writes to no backing array and to no cell that
    existed before, and the index keeps the very slice it was given (it
    does not copy the rows). *)
Theorem NewClientSideIndex_frame h sc rows csi h' :
  slice_elems h sc = Some rows ->
  NewClientSideIndex sc h = Done csi h' ->
  seriesCollection csi = sc
  /\ arrays h' = arrays h
  /\ (forall p, p ∈ dom (cells h) -> cells h' !! p = cells h !! p).
Proof.
  intros Hrows Hrun.
  pose proof (NewClientSideIndex_done_len _ _ _ _ Hrun) as Hlen.
  rewrite (NewClientSideIndex_eval h sc rows Hrows Hlen) in Hrun.
  injection Hrun as <- <-. cbn [seriesCollection assign arrays cells].
  split; [reflexivity|]. split; [reflexivity|].
  intros p Hp.
  set (v := default zeroSeries (last rows)).
  assert (first_var h <> p) as H1 by (intros <-; exact (is_fresh _ Hp)).
  assert (second_var h v <> p) as H2.
  { intros Heq. apply (is_fresh (dom (cells (assign (first_var h) v h)))).
    change (second_var h v ∈ dom (cells (assign (first_var h) v h))).
    rewrite Heq. cbn [assign cells]. rewrite dom_insert_L.
    apply elem_of_union_r. exact Hp. }
  rewrite lookup_insert_ne by exact H2. apply lookup_insert_ne. exact H1.
Qed.

Lemma NewClientSideIndex_frame_witness :
  exists csi h',
    NewClientSideIndex example_slice example_heap = Done csi h'
    /\ seriesCollection csi = example_slice
    /\ arrays h' = arrays example_heap
    /\ (forall p, p ∈ dom (cells example_heap) ->
                  cells h' !! p = cells example_heap !! p).
Proof.
  eexists _, _. split; [vm_compute; reflexivity|].
  eapply (NewClientSideIndex_frame example_heap example_slice
            [example_row1; example_row2]).
  - vm_compute. reflexivity.
  - vm_compute. reflexivity.
Defined.

Lemma set_at_eval sl i v h l :
  slice_elems h sl = Some l ->
  (i < len sl)%nat ->
  exists h', set_at sl i v h = Done tt h'
             /\ slice_elems h' sl = Some (<[i := v]> l)
             /\ cells h' = cells h.
Proof.
  intros Hl Hi. unfold slice_elems in Hl.
  destruct (arrays h !! base sl) as [a|] eqn:Ha; [|discriminate].
  destruct (bool_decide (off sl + cap sl <= length a)%nat) eqn:E1; [|discriminate].
  destruct (bool_decide (len sl <= cap sl)%nat) eqn:E2; [|discriminate].
  apply bool_decide_eq_true in E1, E2. cbn [andb] in Hl. injection Hl as <-.
  unfold set_at. rewrite bool_decide_eq_true_2 by exact Hi. rewrite Ha.
  eexists. split; [reflexivity|]. split; [|reflexivity].
  unfold slice_elems. cbn [arrays]. rewrite lookup_insert_eq, length_insert.
  rewrite !bool_decide_eq_true_2 by assumption. cbn [andb]. f_equal.
  rewrite drop_insert_ge by lia.
  replace (off sl + i - off sl)%nat with i by lia.
  apply take_insert_lt. exact Hi.
Qed.

(** X7: because the index keeps the caller's slice, an assignment
    [seriesCollection[i] = v] made by the caller after the index is built
    shows in the rows of the index, while its list of identifiers stays as
    it was built. *)
Theorem NewClientSideIndex_shares_rows h sc rows csi h' i v :
  slice_elems h sc = Some rows ->
  NewClientSideIndex sc h = Done csi h' ->
  (i < len sc)%nat ->
  exists h'',
    set_at sc i v h' = Done tt h''
    /\ slice_elems h'' (seriesCollection csi) = Some (<[i := v]> rows)
    /\ seriesIds csi = map Id rows.
Proof.
  intros Hrows Hrun Hi.
  pose proof (NewClientSideIndex_done_len _ _ _ _ Hrun) as Hlen.
  rewrite (NewClientSideIndex_eval h sc rows Hrows Hlen) in Hrun.
  injection Hrun as <- <-. cbn [seriesCollection seriesIds].
  set (h' := assign _ _ (assign _ _ h)).
  assert (slice_elems h' sc = Some rows) as Hrows'
    by (rewrite <- Hrows; apply slice_elems_kept; reflexivity).
  destruct (set_at_eval sc i v h' rows Hrows' Hi) as (h'' & Hset & Hread & _).
  exists h''. split; [exact Hset|]. split; [exact Hread|]. apply ids_loop_map.
Qed.

Lemma NewClientSideIndex_shares_rows_witness :
  exists csi h',
    NewClientSideIndex example_slice example_heap = Done csi h'
    /\ exists h'',
         set_at example_slice 0 example_row2 h' = Done tt h''
         /\ slice_elems h'' (seriesCollection csi)
            = Some (<[0%nat := example_row2]> [example_row1; example_row2])
         /\ seriesIds csi = map Id [example_row1; example_row2].
Proof.
  eexists _, _. split; [vm_compute; reflexivity|].
  eapply (NewClientSideIndex_shares_rows example_heap example_slice
            [example_row1; example_row2]).
  - vm_compute. reflexivity.
  - vm_compute. reflexivity.
  - vm_compute. lia.
Defined.

(** * More about the predicates *)

(** X8: matching a filter that is the concatenation of two filters is
    matching both. *)
Theorem MatchesTagSets_app h s row tagsets1 tagsets2 :
  cells h !! s = Some row ->
  exists b1 b2,
    MatchesTagSets s tagsets1 h = Done b1 h
    /\ MatchesTagSets s tagsets2 h = Done b2 h
    /\ MatchesTagSets s (tagsets1 ++ tagsets2)%list h = Done (b1 && b2) h.
Proof.
  intros Hs.
  destruct (MatchesTagSets_eval h s row tagsets1 Hs) as (b1 & H1 & Hb1).
  destruct (MatchesTagSets_eval h s row tagsets2 Hs) as (b2 & H2 & Hb2).
  destruct (MatchesTagSets_eval h s row (tagsets1 ++ tagsets2)%list Hs)
    as (b & H12 & Hb).
  exists b1, b2. split; [exact H1|]. split; [exact H2|]. rewrite H12. f_equal.
  unfold satisfies in *. rewrite Forall_app in Hb.
  destruct b, b1, b2; cbn [andb]; try reflexivity; exfalso; intuition congruence.
Qed.

Lemma MatchesTagSets_app_witness :
  exists b1 b2,
    MatchesTagSets 1%positive [["hostname=host_0"]] example_heap
    = Done b1 example_heap
    /\ MatchesTagSets 1%positive [["region=eu-central-1"]] example_heap
       = Done b2 example_heap
    /\ MatchesTagSets 1%positive
         ([["hostname=host_0"]] ++ [["region=eu-central-1"]])%list example_heap
       = Done (b1 && b2) example_heap.
Proof.
  apply (MatchesTagSets_app example_heap 1%positive example_row1).
  vm_compute. reflexivity.
Defined.

(** X9: a match survives a weaker filter and a richer row: if every group
    of the second filter contains all the tags of some group of the first,
    and the second row has all the tags of the first row, then the second
    row matches the second filter whenever the first row matches the first.
    In particular the order of the groups, the order of the tags in a group
    and repetitions do not matter. *)
Theorem MatchesTagSets_monotone h1 s1 row1 h2 s2 row2 tagsets1 tagsets2 :
  cells h1 !! s1 = Some row1 ->
  cells h2 !! s2 = Some row2 ->
  Tags row1 ⊆ Tags row2 ->
  (forall g2, g2 ∈ tagsets2 ->
              exists g1, g1 ∈ tagsets1 /\ forall t, t ∈ g1 -> t ∈ g2) ->
  MatchesTagSets s1 tagsets1 h1 = Done true h1 ->
  MatchesTagSets s2 tagsets2 h2 = Done true h2.
Proof.
  intros Hs1 Hs2 Htags Hgroups Hrun.
  destruct (MatchesTagSets_eval h1 s1 row1 tagsets1 Hs1) as (b1 & H1 & Hb1).
  destruct (MatchesTagSets_eval h2 s2 row2 tagsets2 Hs2) as (b2 & H2 & Hb2).
  rewrite H1 in Hrun. injection Hrun as ->.
  rewrite H2. f_equal. apply Hb2. unfold satisfies in *.
  apply Forall_forall. intros g2 Hg2.
  destruct (Hgroups g2 Hg2) as (g1 & Hg1 & Hsub).
  destruct Hb1 as [Hb1 _]. specialize (Hb1 eq_refl).
  rewrite Forall_forall in Hb1. specialize (Hb1 g1 Hg1).
  apply Exists_exists in Hb1 as (t & Ht & Hrow).
  apply Exists_exists. exists t. split; [apply Hsub; exact Ht|].
  apply Htags. exact Hrow.
Qed.

Lemma MatchesTagSets_monotone_witness :
  MatchesTagSets 1%positive
    [["region=eu-central-1"; "hostname=host_0"]; ["hostname=host_0"; "hostname=host_1"]]
    example_heap
  = Done true example_heap.
Proof.
  apply (MatchesTagSets_monotone example_heap 1%positive example_row1
           example_heap 1%positive example_row1 [["hostname=host_0"]]).
  - vm_compute. reflexivity.
  - vm_compute. reflexivity.
  - reflexivity.
  - intros g2 Hg2. exists ["hostname=host_0"].
    split; [apply list_elem_of_here|]. intros t Ht.
    apply list_elem_of_singleton in Ht. subst t.
    apply elem_of_cons in Hg2 as [->|Hg2].
    + apply list_elem_of_further, list_elem_of_here.
    + apply list_elem_of_singleton in Hg2. subst g2. apply list_elem_of_here.
  - vm_compute. reflexivity.
Defined.

Lemma parsed_row_identifier BucketDuration table m tags f year month day :
  token m -> Forall token tags -> NoDup tags ->
  has_byte "#" f = false ->
  valid_date year month day ->
  parsed_row BucketDuration table (identifier m tags f (fmt_date year month day))
  = Some (mkSeries table (identifier m tags f (fmt_date year month day)) m
                   (list_to_set tags) f
                   (mkTimeInterval (Date year month day)
                                   (Date year month day + BucketDuration))).
Proof.
  intros [Hm1 Hm2] Htags Hnd Hf Hdate.
  assert (Forall (fun t => has_byte "#" t = false) tags) as Htags1
    by (eapply Forall_impl; [exact Htags|intros t [H _]; exact H]).
  assert (Forall (fun t => has_byte "," t = false) tags) as Htags2
    by (eapply Forall_impl; [exact Htags|intros t [_ H]; exact H]).
  unfold parsed_row.
  pose proof (NewSeries_eval BucketDuration table
                (identifier m tags f (fmt_date year month day)) emptyHeap) as Hrun.
  cbv zeta in Hrun. rewrite Hrun. clear Hrun.
  rewrite (Split_identifier m tags f _ Hm1 Htags1 Hf (fmt_date_no_hash _ _ _)).
  rewrite (Split_measurement_and_tags m tags Hm2 Htags2).
  rewrite (decide_True _ _ Hnd), (time_Parse_fmt_date _ _ _ Hdate).
  reflexivity.
Qed.

(** X10: parsing and matching agree: for the row parsed from a well-formed
    identifier [m,t1,...,tn#f#YYYY-MM-DD], [MatchesMeasurementName] is
    true for [m] and for no other name, [MatchesFieldName] is true for [f]
    and for no other name, and the filter of the single tag [t] matches
    exactly when [t] is one of [t1,...,tn]. *)
Theorem parsed_row_matches BucketDuration table m tags f year month day :
  token m -> Forall token tags -> NoDup tags ->
  has_byte "#" f = false ->
  valid_date year month day ->
  exists row,
    parsed_row BucketDuration table
               (identifier m tags f (fmt_date year month day)) = Some row
    /\ forall h s, cells h !! s = Some row ->
         (forall name, exists b,
             MatchesMeasurementName s name h = Done b h /\ (b = true <-> name = m))
         /\ (forall name, exists b,
               MatchesFieldName s name h = Done b h /\ (b = true <-> name = f))
         /\ (forall t, exists b,
               MatchesTagSets s [[t]] h = Done b h /\ (b = true <-> t ∈ tags)).
Proof.
  intros Hm Htags Hnd Hf Hdate.
  eexists. split;
    [exact (parsed_row_identifier BucketDuration table m tags f year month day
              Hm Htags Hnd Hf Hdate)|].
  intros h s Hs. split; [|split].
  - intros name. eexists. split.
    + unfold MatchesMeasurementName. run_load Hs. reflexivity.
    + rewrite bool_decide_eq_true. cbn [Measurement]. split; congruence.
  - intros name. eexists. split.
    + unfold MatchesFieldName. run_load Hs. reflexivity.
    + rewrite bool_decide_eq_true. cbn [Field]. split; congruence.
  - intros t. destruct (MatchesTagSets_eval h s _ [[t]] Hs) as (b & Hb & Hiff).
    exists b. split; [exact Hb|]. rewrite Hiff. unfold satisfies. cbn [Tags].
    rewrite Forall_cons, Forall_nil, Exists_cons, Exists_nil.
    rewrite elem_of_list_to_set. tauto.
Qed.

Lemma parsed_row_matches_witness :
  exists row,
    parsed_row day_bucket "T"
      (identifier "cpu" ["hostname=host_0"; "region=eu-central-1"] "usage_idle"
                  (fmt_date 2016 1 1)) = Some row
    /\ forall h s, cells h !! s = Some row ->
         (forall name, exists b,
             MatchesMeasurementName s name h = Done b h
             /\ (b = true <-> name = "cpu"))
         /\ (forall name, exists b,
               MatchesFieldName s name h = Done b h
               /\ (b = true <-> name = "usage_idle"))
         /\ (forall t, exists b,
               MatchesTagSets s [[t]] h = Done b h
               /\ (b = true <-> t ∈ ["hostname=host_0"; "region=eu-central-1"])).
Proof.
  apply (parsed_row_matches day_bucket "T" "cpu"
           ["hostname=host_0"; "region=eu-central-1"] "usage_idle" 2016 1 1).
  - split; reflexivity.
  - repeat constructor.
  - apply (bool_decide_unpack _). vm_compute. exact I.
  - reflexivity.
  - repeat split; vm_compute; discriminate.
Defined.

(** * Fetching the collection *)

(** The two ways [NewSeries] ends. *)
Lemma NewSeries_cases BucketDuration table id h :
  (malformed id /\ exists msg, NewSeries BucketDuration table id h = Fatal msg)
  \/ (~ malformed id
      /\ exists r, parsed_row BucketDuration table id = Some r
                   /\ Table r = table /\ Id r = id
                   /\ NewSeries BucketDuration table id h
                      = Done r (assign (fresh (dom (cells h))) r h)).
Proof.
  unfold parsed_row.
  pose proof (NewSeries_eval BucketDuration table id h) as E1.
  pose proof (NewSeries_eval BucketDuration table id emptyHeap) as E2.
  cbv zeta in E1, E2. rewrite E1, E2. clear E1 E2.
  unfold malformed, tag_section, date_section.
  destruct (Split id "#") as [|sec0 [|sec1 [|sec2 [|sec3 rest]]]];
    cbn [length nth];
    try (left; split; [left; discriminate|eexists; reflexivity]).
  destruct (Split sec0 ",") as [|m toks] eqn:Hsec0;
    [exfalso; exact (Split_nonempty _ _ Hsec0)|].
  cbn [drop]. rewrite drop_0.
  destruct (decide (NoDup toks)) as [Hnd|Hnd];
    [|left; split; [right; left; exact Hnd|eexists; reflexivity]].
  destruct (time_Parse_date sec2) as [start|];
    [|left; split; [right; right; reflexivity|eexists; reflexivity]].
  right. split.
  - intros [Hlen|[Hdup|Hdate]]; [congruence|contradiction|discriminate].
  - eexists. split; [reflexivity|]. repeat split.
Qed.

Section FetchProperties.
Variable BucketDuration : Duration.
Variable BlessedTables : list string.
Variable Cassandra : string -> string -> list string * option string.

Lemma scan_loop_cases tableName ids : forall sc h l,
  slice_elems h sc = Some l ->
  (Forall (fun id => ~ malformed id) ids
   /\ exists sc' h' rows,
        scan_loop BucketDuration tableName ids sc h = Done sc' h'
        /\ slice_elems h' sc' = Some (l ++ rows)%list
        /\ Forall2 (fun r id => parsed_row BucketDuration tableName id = Some r
                                /\ Table r = tableName /\ Id r = id) rows ids)
  \/ (Exists malformed ids
      /\ exists msg, scan_loop BucketDuration tableName ids sc h = Fatal msg).
Proof.
  induction ids as [|id rest IH]; intros sc h l Hl.
  - left. split; [constructor|]. exists sc, h, []. rewrite app_nil_r.
    split; [reflexivity|]. split; [exact Hl|constructor].
  - destruct (NewSeries_cases BucketDuration tableName id h)
      as [[Hmal [msg Hrun]]|[Hok (r & Hrow & Htable & Hid & Hrun)]].
    + right. split; [apply Exists_cons_hd; exact Hmal|].
      exists msg. cbn [scan_loop]. unfold mbind. rewrite Hrun. reflexivity.
    + set (h1 := assign (fresh (dom (cells h))) r h) in *.
      assert (slice_elems h1 sc = Some l) as Hl1
        by (rewrite <- Hl; apply slice_elems_kept; reflexivity).
      destruct (append_eval sc r h1 l Hl1) as (sc1 & h2 & Happ & Hl2).
      assert (scan_loop BucketDuration tableName (id :: rest) sc h
              = scan_loop BucketDuration tableName rest sc1 h2) as Hstep
        by (cbn [scan_loop]; unfold mbind; rewrite Hrun, Happ; reflexivity).
      rewrite Hstep.
      destruct (IH sc1 h2 _ Hl2)
        as [[Hall (sc' & h' & rows & Hloop & Hl' & Hrows)]|[Hex [msg Hloop]]].
      * left. split; [constructor; assumption|].
        exists sc', h', (r :: rows). split; [exact Hloop|].
        split; [rewrite Hl', <- app_assoc; reflexivity|].
        constructor; [repeat split; assumption|exact Hrows].
      * right. split; [apply Exists_cons_tl; exact Hex|].
        exists msg. exact Hloop.
Qed.

Lemma tables_loop_cases daemonUrl tables : forall sc h l,
  slice_elems h sc = Some l ->
  (Forall (fun t => ~ bad_table Cassandra daemonUrl t) tables
   /\ exists sc' h' rows,
        tables_loop BucketDuration Cassandra daemonUrl tables sc h = Done sc' h'
        /\ slice_elems h' sc' = Some (l ++ rows)%list
        /\ Forall2 (fun r p => parsed_row BucketDuration (fst p) (snd p) = Some r
                               /\ Table r = fst p /\ Id r = snd p)
                   rows (scanned Cassandra daemonUrl tables))
  \/ (Exists (bad_table Cassandra daemonUrl) tables
      /\ exists msg,
           tables_loop BucketDuration Cassandra daemonUrl tables sc h = Fatal msg).
Proof.
  induction tables as [|t rest IH]; intros sc h l Hl.
  - left. split; [constructor|]. exists sc, h, []. rewrite app_nil_r.
    split; [reflexivity|]. split; [exact Hl|constructor].
  - destruct (Cassandra daemonUrl (series_id_query t)) as [ids err] eqn:Hiter.
    assert (bad_table Cassandra daemonUrl t
            <-> (exists id, id ∈ ids /\ malformed id) \/ err <> None) as Hbad_t
      by (unfold bad_table; rewrite Hiter; reflexivity).
    assert (scanned Cassandra daemonUrl (t :: rest)
            = (map (pair t) ids ++ scanned Cassandra daemonUrl rest)%list) as Hscanned
      by (cbn [scanned flat_map]; rewrite Hiter; reflexivity).
    assert (tables_loop BucketDuration Cassandra daemonUrl (t :: rest) sc h
            = match scan_loop BucketDuration t ids sc h with
              | Done sc1 h1 =>
                  match err with
                  | Some e => Fatal e
                  | None => tables_loop BucketDuration Cassandra daemonUrl rest sc1 h1
                  end
              | Fatal msg => Fatal msg
              | Panic msg => Panic msg
              end) as Hstep.
    { cbn [tables_loop]. rewrite Hiter. cbn [fst snd]. unfold mbind.
      destruct (scan_loop BucketDuration t ids sc h); try reflexivity.
      destruct err; reflexivity. }
    rewrite Hstep, Hscanned. clear Hstep Hscanned.
    destruct (scan_loop_cases t ids sc h l Hl)
      as [[Hids (sc1 & h1 & rows1 & Hscan & Hl1 & Hrows1)]|[Hex [msg Hscan]]];
      rewrite Hscan.
    2:{ right. split; [|exists msg; reflexivity].
        apply Exists_cons_hd, Hbad_t. left. apply Exists_exists. exact Hex. }
    destruct err as [e|].
    { right. split; [|exists e; reflexivity].
      apply Exists_cons_hd, Hbad_t. right. discriminate. }
    destruct (IH sc1 h1 _ Hl1)
      as [[Hall (sc' & h' & rows & Hloop & Hl' & Hrows)]|[Hbad [msg Hloop]]].
    + left. split.
      * constructor; [|exact Hall]. rewrite Hbad_t.
        intros [(id & Hin & Hmal)|Herr]; [|congruence].
        exact (proj1 (Forall_forall _ _) Hids id Hin Hmal).
      * exists sc', h', (rows1 ++ rows)%list. split; [exact Hloop|].
        split; [rewrite Hl', app_assoc; reflexivity|].
        apply Forall2_app; [|exact Hrows].
        apply Forall2_fmap_r. exact Hrows1.
    + right. split; [apply Exists_cons_tl; exact Hbad|]. exists msg. exact Hloop.
Qed.

Lemma FetchSeriesCollection_cases daemonUrl h :
  (Forall (fun t => ~ bad_table Cassandra daemonUrl t) BlessedTables
   /\ exists sc h' rows,
        FetchSeriesCollection BucketDuration BlessedTables Cassandra daemonUrl h
        = Done sc h'
        /\ slice_elems h' sc = Some rows
        /\ Forall2 (fun r p => parsed_row BucketDuration (fst p) (snd p) = Some r
                               /\ Table r = fst p /\ Id r = snd p)
                   rows (scanned Cassandra daemonUrl BlessedTables))
  \/ (Exists (bad_table Cassandra daemonUrl) BlessedTables
      /\ exists msg,
           FetchSeriesCollection BucketDuration BlessedTables Cassandra daemonUrl h
           = Fatal msg).
Proof.
  unfold FetchSeriesCollection, mbind, alloc_array.
  set (l := fresh (dom (arrays h))).
  set (h0 := mkHeap (cells h) (<[l := []]> (arrays h))).
  assert (slice_elems h0 (mkSlice l 0 0 0) = Some []) as Hl.
  { apply slice_elems_whole; [apply lookup_insert_eq|reflexivity]. }
  exact (tables_loop_cases daemonUrl BlessedTables _ h0 [] Hl).
Qed.
End FetchProperties.

Lemma Forall2_rows_ids BucketDuration rows (pairs : list (string * string)) :
  Forall2 (fun r p => parsed_row BucketDuration (fst p) (snd p) = Some r
                      /\ Table r = fst p /\ Id r = snd p) rows pairs ->
  map Table rows = map fst pairs /\ map Id rows = map snd pairs.
Proof.
  induction 1 as [|r p rows pairs (_ & Ht & Hi) _ [IHt IHi]]; cbn [map].
  - split; reflexivity.
  - rewrite Ht, Hi, IHt, IHi. split; reflexivity.
Qed.

(** X11: on an open session, [FetchSeriesCollection] ends in [log.Fatal]
    exactly when some blessed table has a malformed identifier or an
    iterator that closes with an error; otherwise it returns. It never
    panics. *)
Theorem FetchSeriesCollection_fatal_iff
    BucketDuration BlessedTables Cassandra daemonUrl h :
  ((exists msg,
       FetchSeriesCollection BucketDuration BlessedTables Cassandra daemonUrl h
       = Fatal msg)
   <-> exists t, t ∈ BlessedTables /\ bad_table Cassandra daemonUrl t)
  /\ ((exists sc h',
         FetchSeriesCollection BucketDuration BlessedTables Cassandra daemonUrl h
         = Done sc h')
      <-> ~ exists t, t ∈ BlessedTables /\ bad_table Cassandra daemonUrl t).
Proof.
  destruct (FetchSeriesCollection_cases BucketDuration BlessedTables Cassandra
              daemonUrl h)
    as [[Hall (sc & h' & rows & Hrun & _)]|[Hex [msg Hrun]]]; rewrite Hrun.
  - rewrite Forall_forall in Hall. split; split.
    + intros [msg Hmsg]. discriminate.
    + intros (t & Ht & Hbad). exfalso. exact (Hall t Ht Hbad).
    + intros _ (t & Ht & Hbad). exact (Hall t Ht Hbad).
    + intros _. eexists _, _. reflexivity.
  - apply Exists_exists in Hex. split; split.
    + intros _. exact Hex.
    + intros _. eexists. reflexivity.
    + intros (? & ? & ?). discriminate.
    + intros Hn. contradiction.
Qed.

(** X12: when [FetchSeriesCollection] returns, the slice holds one row for
    each identifier the iterators gave, table by table in the order of
    [BlessedTables] and within a table in the order of the scan; each row
    is the one [NewSeries] parses from its table and identifier and keeps
    both in [Table] and [Id]. *)
Theorem FetchSeriesCollection_rows
    BucketDuration BlessedTables Cassandra daemonUrl h sc h' :
  FetchSeriesCollection BucketDuration BlessedTables Cassandra daemonUrl h
  = Done sc h' ->
  exists rows,
    slice_elems h' sc = Some rows
    /\ Forall2 (fun r p => parsed_row BucketDuration (fst p) (snd p) = Some r)
               rows (scanned Cassandra daemonUrl BlessedTables)
    /\ map Table rows = map fst (scanned Cassandra daemonUrl BlessedTables)
    /\ map Id rows = map snd (scanned Cassandra daemonUrl BlessedTables).
Proof.
  intros Hrun.
  destruct (FetchSeriesCollection_cases BucketDuration BlessedTables Cassandra
              daemonUrl h)
    as [[_ (sc0 & h0 & rows & Hrun0 & Hrows & Hall)]|[_ [msg Hrun0]]];
    rewrite Hrun0 in Hrun; [|discriminate].
  injection Hrun as <- <-. exists rows. split; [exact Hrows|].
  destruct (Forall2_rows_ids _ _ _ Hall) as [Ht Hi].
  split; [|split; assumption].
  eapply Forall2_impl; [exact Hall|]. intros r p (Hp & _). exact Hp.
Qed.

(** X13: the index built from what [FetchSeriesCollection] returns lists,
    in [seriesIds], exactly the identifiers the iterators gave, in the
    order of the scan; and when they gave none, building the index is
    fatal. *)
Theorem NewClientSideIndex_of_fetch
    BucketDuration BlessedTables Cassandra daemonUrl h sc h1 :
  FetchSeriesCollection BucketDuration BlessedTables Cassandra daemonUrl h
  = Done sc h1 ->
  (scanned Cassandra daemonUrl BlessedTables = [] ->
   NewClientSideIndex sc h1
   = Fatal "logic error: no data to build ClientSideIndex")
  /\ (scanned Cassandra daemonUrl BlessedTables <> [] ->
      exists csi h2,
        NewClientSideIndex sc h1 = Done csi h2
        /\ seriesIds csi = map snd (scanned Cassandra daemonUrl BlessedTables)).
Proof.
  intros Hrun.
  destruct (FetchSeriesCollection_cases BucketDuration BlessedTables Cassandra
              daemonUrl h)
    as [[_ (sc0 & h0 & rows & Hrun0 & Hrows & Hall)]|[_ [msg Hrun0]]];
    rewrite Hrun0 in Hrun; [|discriminate].
  injection Hrun as <- <-.
  pose proof (slice_elems_length _ _ _ Hrows) as Hlen.
  pose proof (Forall2_length _ _ _ Hall) as Hsame.
  destruct (Forall2_rows_ids _ _ _ Hall) as [_ Hids].
  split.
  - intros Hnone. rewrite Hnone in Hsame. cbn [length] in Hsame.
    unfold NewClientSideIndex. rewrite <- Hlen, Hsame. reflexivity.
  - intros Hsome.
    assert (len sc0 <> 0%nat) as Hne.
    { rewrite <- Hlen, Hsame.
      destruct (scanned Cassandra daemonUrl BlessedTables);
        [contradiction|discriminate]. }
    eexists _, _. split; [exact (NewClientSideIndex_eval h0 sc0 rows Hrows Hne)|].
    cbn [seriesIds]. rewrite ids_loop_map. exact Hids.
Qed.

Lemma FetchSeriesCollection_rows_witness :
  exists sc h',
    FetchSeriesCollection day_bucket example_tables example_cassandra
                          "localhost:9042" emptyHeap = Done sc h'
    /\ exists rows,
         slice_elems h' sc = Some rows
         /\ Forall2 (fun r p => parsed_row day_bucket (fst p) (snd p) = Some r)
                    rows (scanned example_cassandra "localhost:9042" example_tables)
         /\ map Table rows
            = map fst (scanned example_cassandra "localhost:9042" example_tables)
         /\ map Id rows
            = map snd (scanned example_cassandra "localhost:9042" example_tables).
Proof.
  eexists _, _. split; [vm_compute; reflexivity|].
  eapply (FetchSeriesCollection_rows day_bucket example_tables example_cassandra
            "localhost:9042" emptyHeap).
  vm_compute. reflexivity.
Defined.

Lemma NewClientSideIndex_of_fetch_witness :
  (exists sc h1,
      FetchSeriesCollection day_bucket example_tables example_cassandra
                            "localhost:9042" emptyHeap = Done sc h1
      /\ exists csi h2,
           NewClientSideIndex sc h1 = Done csi h2
           /\ seriesIds csi
              = ["cpu,hostname=host_0#usage_idle#2016-01-01";
                 "mem,hostname=host_1#available#2016-01-02"])
  /\ (exists sc h1,
        FetchSeriesCollection day_bucket example_tables empty_cassandra
                              "localhost:9042" emptyHeap = Done sc h1
        /\ NewClientSideIndex sc h1
           = Fatal "logic error: no data to build ClientSideIndex").
Proof.
  split.
  - eexists _, _. split; [vm_compute; reflexivity|].
    refine (proj2 (NewClientSideIndex_of_fetch day_bucket example_tables
                     example_cassandra "localhost:9042" emptyHeap _ _ _) _).
    + vm_compute. reflexivity.
    + discriminate.
  - eexists _, _. split; [vm_compute; reflexivity|].
    refine (proj1 (NewClientSideIndex_of_fetch day_bucket example_tables
                     empty_cassandra "localhost:9042" emptyHeap _ _ _) _).
    + vm_compute. reflexivity.
    + reflexivity.
Defined.

(** * Copying from a built index *)

(** X14: [CopyOfSeriesCollection] on an index just built returns the rows
    the index was built from, in order, in a slice over another backing
    array than the one the index shares with its caller, with no spare
    capacity (so that the first [append] to it moves to yet another
    array). *)
Theorem CopyOfSeriesCollection_of_built_index h sc rows csi h1 :
  slice_elems h sc = Some rows ->
  NewClientSideIndex sc h = Done csi h1 ->
  exists ret h2,
    CopyOfSeriesCollection csi h1 = Done ret h2
    /\ slice_elems h2 ret = Some rows
    /\ base ret <> base sc
    /\ len ret = length rows /\ cap ret = length rows
    /\ cells h2 = cells h1.
Proof.
  intros Hrows Hrun.
  pose proof (NewClientSideIndex_done_len _ _ _ _ Hrun) as Hlen.
  rewrite (NewClientSideIndex_eval h sc rows Hrows Hlen) in Hrun.
  injection Hrun as <- <-.
  set (h1 := assign _ _ (assign _ _ h)).
  set (csi := mkClientSideIndex _ _ sc _).
  assert (slice_elems h1 (seriesCollection csi) = Some rows) as Hrows1
    by (rewrite <- Hrows; apply slice_elems_kept; reflexivity).
  pose proof (CopyOfSeriesCollection_eval h1 csi rows Hrows1) as Hcopy.
  cbv zeta in Hcopy. rewrite Hcopy.
  pose proof (slice_elems_length _ _ _ Hrows1) as Hlen1.
  pose proof (slice_elems_base _ _ _ Hrows1) as Hbase.
  eexists _, _. split; [reflexivity|]. cbn [base len cap cells].
  split; [apply slice_elems_whole; [apply lookup_insert_eq|exact Hlen1]|].
  split.
  { intros Heq. apply (is_fresh (dom (arrays h1))). rewrite Heq. exact Hbase. }
  repeat split; symmetry; exact Hlen1.
Qed.

Lemma CopyOfSeriesCollection_of_built_index_witness :
  exists csi h1,
    NewClientSideIndex example_slice example_heap = Done csi h1
    /\ exists ret h2,
         CopyOfSeriesCollection csi h1 = Done ret h2
         /\ slice_elems h2 ret = Some [example_row1; example_row2]
         /\ base ret <> base example_slice
         /\ len ret = length [example_row1; example_row2]
         /\ cap ret = length [example_row1; example_row2]
         /\ cells h2 = cells h1.
Proof.
  eexists _, _. split; [vm_compute; reflexivity|].
  eapply (CopyOfSeriesCollection_of_built_index example_heap example_slice
            [example_row1; example_row2]).
  - vm_compute. reflexivity.
  - vm_compute. reflexivity.
Defined.
